(** * YPP payments explorer: the fetch / aggregate / present pipeline

    A shallow embedding of [Payments.tsx] (the component
    [CreatorPaymentsExplorer] with its helpers [formatJoy] and
    [fetchPayments]) and of the query document of [queries/payments.ts].

    Conventions of the embedding:
    - a JavaScript [bigint] is a [Z]; a JavaScript [number] that only ever
      holds a small non-negative integer is a [nat] (the per-channel [count])
      or a [Z] (the page [offset] and [limit]): both are exact below 2^53,
      far above anything a run can reach;
    - a JavaScript string is a [string] holding its UTF-8 bytes;
    - [null] / [undefined] are [None];
    - a thrown exception is the [Throw] constructor of [result];
    - the object [acc] built by [reduce] is an association list in creation
      order; [Object.values] reads it in the own-property order of
      ECMAScript (array-index keys ascending, then the others in creation
      order). *)

From Stdlib Require Import List String Ascii ZArith NArith Arith Bool Lia.
From Stdlib Require Import Permutation Sorted DecimalString DecimalN.
Import ListNotations.
Local Open Scope string_scope.

Set Implicit Arguments.

(** ** Exceptions and results *)

Inductive exn : Type :=
| TypeError                      (* property read on null, bigint mixed with undefined *)
| SyntaxError                    (* BigInt() on a string that is no integer literal *)
| RequestError (message : string). (* a rejected graphql-request *)

Inductive result (A : Type) : Type :=
| Ok (a : A)
| Throw (e : exn).
Arguments Ok {A} a.
Arguments Throw {A} e.

Definition bind {A B : Type} (r : result A) (k : A -> result B) : result B :=
  match r with
  | Ok a => k a
  | Throw e => Throw e
  end.

Notation "x <- r ;; k" := (bind r (fun x => k))
  (at level 61, r at next level, right associativity).

(** ** Data model (the selection set of [GetChannelPayments]) *)

Record Channel : Type := mkChannel {
  id : string;
  title : option string          (* nullable in the schema *)
}.

Record PaymentEvent : Type := mkPayment {
  payment_id : string;
  amount : string;               (* the BigInt scalar, sent as a string *)
  createdAt : string;
  inBlock : Z;
  payeeChannel : option Channel; (* nullable in the schema *)
  rationale : option string
}.

Record ChannelAggregate : Type := mkAggregate {
  channelId : string;
  channelTitle : string;
  totalAmount : Z;
  count : nat
}.

(** ** [BigInt(string)]: ECMAScript's StringToBigInt *)

Module JsBigInt.

(** White space and line terminators that StringToBigInt trims, as UTF-8:
    TAB LF VT FF CR SP, U+00A0, U+1680, U+2000..U+200A, U+2028, U+2029,
    U+202F, U+205F, U+3000, U+FEFF. *)
Definition white_space : list (list nat) :=
  [ [9]; [10]; [11]; [12]; [13]; [32];
    [194; 160]; [225; 154; 128];
    [226; 128; 128]; [226; 128; 129]; [226; 128; 130]; [226; 128; 131];
    [226; 128; 132]; [226; 128; 133]; [226; 128; 134]; [226; 128; 135];
    [226; 128; 136]; [226; 128; 137]; [226; 128; 138];
    [226; 128; 168]; [226; 128; 169]; [226; 128; 175];
    [226; 129; 159]; [227; 128; 128]; [239; 187; 191] ].

Fixpoint strip_prefix (p : list nat) (l : list ascii) : option (list ascii) :=
  match p, l with
  | [], _ => Some l
  | n :: p', c :: l' =>
      if Nat.eqb n (nat_of_ascii c) then strip_prefix p' l' else None
  | _ :: _, [] => None
  end.

Fixpoint strip_any (ps : list (list nat)) (l : list ascii) : option (list ascii) :=
  match ps with
  | [] => None
  | p :: ps' =>
      match strip_prefix p l with
      | Some r => Some r
      | None => strip_any ps' l
      end
  end.

Fixpoint trim_start_fuel (ps : list (list nat)) (fuel : nat) (l : list ascii)
  : list ascii :=
  match fuel with
  | O => l
  | S f =>
      match strip_any ps l with
      | Some r => trim_start_fuel ps f r
      | None => l
      end
  end.

Definition trim_start (l : list ascii) : list ascii :=
  trim_start_fuel white_space (List.length l) l.

Definition trim_end (l : list ascii) : list ascii :=
  rev (trim_start_fuel (map (@rev nat) white_space) (List.length l) (rev l)).

Definition trim (l : list ascii) : list ascii := trim_end (trim_start l).

(** The value of one digit in the given radix. *)
Definition digit_val (radix : Z) (c : ascii) : option Z :=
  let n := Z.of_nat (nat_of_ascii c) in
  let d :=
    if (Z.leb 48 n && Z.leb n 57)%bool then Some (n - 48)%Z
    else if (Z.leb 97 n && Z.leb n 102)%bool then Some (n - 87)%Z
    else if (Z.leb 65 n && Z.leb n 70)%bool then Some (n - 55)%Z
    else None in
  match d with
  | Some v => if Z.ltb v radix then Some v else None
  | None => None
  end.

Fixpoint digits_from (radix : Z) (l : list ascii) (acc : Z) : option Z :=
  match l with
  | [] => Some acc
  | c :: r =>
      match digit_val radix c with
      | Some d => digits_from radix r (acc * radix + d)
      | None => None
      end
  end.

(** One digit at least. *)
Definition digits (radix : Z) (l : list ascii) : option Z :=
  match l with
  | [] => None
  | _ :: _ => digits_from radix l 0
  end.

(** StrIntegerLiteral: a signed decimal, or an unsigned 0b / 0o / 0x
    literal. *)
Definition integer_literal (l : list ascii) : option Z :=
  match l with
  | "+"%char :: r => digits 10 r
  | "-"%char :: r => option_map Z.opp (digits 10 r)
  | "0"%char :: c :: r =>
      if (Ascii.eqb c "x" || Ascii.eqb c "X")%bool then digits 16 r
      else if (Ascii.eqb c "o" || Ascii.eqb c "O")%bool then digits 8 r
      else if (Ascii.eqb c "b" || Ascii.eqb c "B")%bool then digits 2 r
      else digits 10 l
  | _ => digits 10 l
  end.

(** StringToBigInt: the empty (or all white space) string is 0n. *)
Definition parse (s : string) : option Z :=
  match trim (list_ascii_of_string s) with
  | [] => Some 0%Z
  | l => integer_literal l
  end.

End JsBigInt.

(** [BigInt(raw)] for a string argument. *)
Definition BigInt (raw : string) : result Z :=
  match JsBigInt.parse raw with
  | Some z => Ok z
  | None => Throw SyntaxError
  end.

(** ** The object [acc] of the reducer

    [acc] starts as the literal [{}]: it has no own property and inherits
    those of [Object.prototype].  Own properties are kept in creation
    order. *)

Module JsObject.

Definition t (V : Type) : Type := list (string * V).

Definition empty {V : Type} : t V := [].

(** The property names every plain object inherits from
    [Object.prototype]; each holds a function (or, for [__proto__], the
    prototype object), a truthy value without a [totalAmount]. *)
Definition prototype_keys : list string :=
  [ "constructor"; "__defineGetter__"; "__defineSetter__"; "hasOwnProperty";
    "__lookupGetter__"; "__lookupSetter__"; "isPrototypeOf";
    "propertyIsEnumerable"; "toString"; "valueOf"; "__proto__";
    "toLocaleString" ].

Definition inherited (k : string) : bool :=
  existsb (String.eqb k) prototype_keys.

(** Own-property lookup. *)
Fixpoint get {V : Type} (o : t V) (k : string) : option V :=
  match o with
  | [] => None
  | (k', v) :: r => if String.eqb k k' then Some v else get r k
  end.

(** [o[k] = v] for a key that is not yet an own property. *)
Definition add {V : Type} (o : t V) (k : string) (v : V) : t V :=
  (o ++ [(k, v)])%list.

(** In-place update of the object stored under [k]. *)
Fixpoint update {V : Type} (o : t V) (k : string) (f : V -> V) : t V :=
  match o with
  | [] => []
  | (k', v) :: r =>
      if String.eqb k k' then (k', f v) :: r else (k', v) :: update r k f
  end.

Definition keys {V : Type} (o : t V) : list string := map fst o.

(** An array index: the canonical decimal form of an integer in
    [0, 2^32 - 2]. *)
Definition is_digit (c : ascii) : bool :=
  (Nat.leb 48 (nat_of_ascii c) && Nat.leb (nat_of_ascii c) 57)%bool.

Fixpoint decimal_from (l : list ascii) (acc : N) : N :=
  match l with
  | [] => acc
  | c :: r => decimal_from r (acc * 10 + (N.of_nat (nat_of_ascii c) - 48))%N
  end.

Definition array_index (k : string) : option N :=
  match list_ascii_of_string k with
  | [] => None
  | c :: r =>
      if (forallb is_digit (c :: r)
          && (negb (Ascii.eqb c "0") || Nat.eqb (List.length r) 0)
          && Nat.leb (List.length (c :: r)) 10)%bool
      then
        let n := decimal_from (c :: r) 0 in
        if (n <=? 4294967294)%N then Some n else None
      else None
  end.

Definition is_index (k : string) : bool :=
  match array_index k with Some _ => true | None => false end.

(** Ascending insertion among array-index properties. *)
Fixpoint insert_index {V : Type} (n : N) (e : string * V)
    (l : list (N * (string * V))) : list (N * (string * V)) :=
  match l with
  | [] => [(n, e)]
  | (m, e') :: r =>
      if (n <? m)%N then (n, e) :: l else (m, e') :: insert_index n e r
  end.

Fixpoint index_entries {V : Type} (o : t V) : list (N * (string * V)) :=
  match o with
  | [] => []
  | (k, v) :: r =>
      match array_index k with
      | Some n => insert_index n (k, v) (index_entries r)
      | None => index_entries r
      end
  end.

Definition named_entries {V : Type} (o : t V) : t V :=
  filter (fun e => negb (is_index (fst e))) o.

(** OrdinaryOwnPropertyKeys: array indices in ascending numeric order, then
    string keys in creation order. *)
Definition entries {V : Type} (o : t V) : t V :=
  (map snd (index_entries o) ++ named_entries o)%list.

(** [Object.values(o)]. *)
Definition values {V : Type} (o : t V) : list V := map snd (entries o).

End JsObject.

(** ** The aggregator: [groupedPayments] *)

Definition Buckets : Type := JsObject.t ChannelAggregate.

(** [payment.payeeChannel?.title || "Unknown"]: [null], [undefined] and
    the empty string are falsy. *)
Definition title_or_unknown (c : option Channel) : string :=
  match c with
  | Some ch =>
      match title ch with
      | Some t => if String.eqb t "" then "Unknown" else t
      | None => "Unknown"
      end
  | None => "Unknown"
  end.

(** [payment.payeeChannel!.id]: the non-null assertion is erased by the
    compiler, so a [null] channel is a property read on [null]. *)
Definition payee_id (payment : PaymentEvent) : result string :=
  match payeeChannel payment with
  | Some ch => Ok (id ch)
  | None => Throw TypeError
  end.

Definition bump (a : Z) (g : ChannelAggregate) : ChannelAggregate :=
  {| channelId := channelId g;
     channelTitle := channelTitle g;
     totalAmount := totalAmount g + a;
     count := count g + 1 |}.

(** The callback of [reduce].  For a name inherited from
    [Object.prototype] the test [!acc[channelId]] is false, no bucket is
    created, and [acc[channelId].totalAmount] is [undefined]: [BigInt] is
    evaluated (and may throw), then [undefined + bigint] throws. *)
Definition reducer (acc : Buckets) (payment : PaymentEvent) : result Buckets :=
  channelId <- payee_id payment ;;
  if JsObject.inherited channelId then
    _ <- BigInt (amount payment) ;;
    Throw TypeError
  else
    let acc1 :=
      match JsObject.get acc channelId with
      | Some _ => acc
      | None =>
          JsObject.add acc channelId
            {| channelId := channelId;
               channelTitle := title_or_unknown (payeeChannel payment);
               totalAmount := 0;
               count := 0 |}
      end in
    a <- BigInt (amount payment) ;;
    Ok (JsObject.update acc1 channelId (bump a)).

(** [payments.reduce(reducer, acc)]. *)
Fixpoint reduce (acc : Buckets) (payments : list PaymentEvent) : result Buckets :=
  match payments with
  | [] => Ok acc
  | payment :: rest =>
      acc' <- reducer acc payment ;;
      reduce acc' rest
  end.

(** [payments] is [undefined] until the query has data. *)
Definition groupedPayments (payments : option (list PaymentEvent))
  : result (list ChannelAggregate) :=
  match payments with
  | None => Ok []
  | Some l =>
      acc <- reduce JsObject.empty l ;;
      Ok (JsObject.values acc)
  end.

(** ** The formatter: [formatJoy] *)

Module Dnum.

Definition decimal (n : Z) : string :=
  NilZero.string_of_uint (N.to_uint (Z.to_N n)).

Fixpoint zeros (n : nat) : string :=
  match n with
  | O => ""
  | S m => String "0" (zeros m)
  end.

Definition pad_start (width : nat) (s : string) : string :=
  zeros (width - String.length s) ++ s.

(** The value [value / 10^decimals] expressed in units of [10^-digits],
    rounded half away from zero. *)
Definition rounded (value : Z) (decimals digits : nat) : Z :=
  let m := Z.abs value in
  if Nat.leb digits decimals then
    let scale := (10 ^ Z.of_nat (decimals - digits))%Z in
    ((2 * m + scale) / (2 * scale))%Z
  else (m * 10 ^ Z.of_nat (digits - decimals))%Z.

(** Modelled from the spec: [dn.format] belongs to the dnum package, whose
    code is not part of the repository.  Following section 4.2, the fixed
    point number [value / 10^decimals] is rounded to [digits] fractional
    digits and printed with exactly that many fractional digits, without
    digit grouping. *)
Definition format (value : Z) (decimals digits : nat) : string :=
  let r := rounded value decimals digits in
  let unit := (10 ^ Z.of_nat digits)%Z in
  let sign := if (value <? 0)%Z && negb (r =? 0)%Z then "-" else "" in
  let whole := decimal (r / unit) in
  match digits with
  | O => sign ++ whole
  | S _ => sign ++ whole ++ "." ++ pad_start digits (decimal (r mod unit))
  end.

End Dnum.

(** [`${dn.format([BigInt(raw), 10], { digits: 2 })} JOY`]. *)
Definition formatJoy (raw : string) : result string :=
  v <- BigInt raw ;;
  Ok (Dnum.format v 10 2 ++ " JOY").

(** ** The pagination fetcher: [fetchPayments] *)

(** What one awaited [request(...)] settles to. *)
Inductive response : Type :=
| Page (channelPaymentMadeEvents : list PaymentEvent)
| Rejected (e : exn).

(** The remote endpoint, as a function of the variables [{limit, offset}]
    of the query. *)
Definition source : Type := Z -> Z -> response.

Definition limit : Z := 5000.

(** The [while (true)] loop.  [fuel] bounds the number of iterations that
    are run; the result is the list of offsets requested, in order, and
    [None] while the loop is still running when the fuel is spent. *)
Fixpoint fetch_loop (request : source) (fuel : nat)
    (allPayments : list PaymentEvent) (offset : Z)
  : list Z * option (result (list PaymentEvent)) :=
  match fuel with
  | O => ([], None)
  | S fuel' =>
      match request limit offset with
      | Rejected e => ([offset], Some (Throw e))
      | Page newPayments =>
          let allPayments := (allPayments ++ newPayments)%list in
          if (Z.of_nat (List.length newPayments) <? limit)%Z
          then ([offset], Some (Ok allPayments))
          else
            let (requested, outcome) :=
              fetch_loop request fuel' allPayments (offset + limit)%Z in
            (offset :: requested, outcome)
      end
  end.

Definition fetchPayments (request : source) (fuel : nat)
  : list Z * option (result (list PaymentEvent)) :=
  fetch_loop request fuel [] 0%Z.

(** The offset of the [k]-th request. *)
Definition offset_of (k : nat) : Z := (Z.of_nat k * limit)%Z.

(** The request at the [k]-th offset ends the loop: it is rejected, or its
    page is shorter than [limit]. *)
Definition stops (request : source) (k : nat) : bool :=
  match request limit (offset_of k) with
  | Rejected _ => true
  | Page p => (Z.of_nat (List.length p) <? limit)%Z
  end.

Definition page_at (request : source) (k : nat) : list PaymentEvent :=
  match request limit (offset_of k) with
  | Page p => p
  | Rejected _ => []
  end.

(** The pages at the [n] offsets from the [k]-th on, concatenated. *)
Fixpoint pages_from (request : source) (k n : nat) : list PaymentEvent :=
  match n with
  | O => []
  | S n' => (page_at request k ++ pages_from request (S k) n')%list
  end.

(** The loop has ended within some number of iterations. *)
Definition terminates (request : source) : Prop :=
  exists fuel, snd (fetchPayments request fuel) <> None.

(** The loop has ended through its [break], with a result. *)
Definition returns (request : source) : Prop :=
  exists fuel l, snd (fetchPayments request fuel) = Some (Ok l).

(** ** The component: query state, view state and table configuration *)

(** Modelled from the spec: [useQuery] and the persisted query cache belong
    to @tanstack/react-query, whose code is not part of the repository.
    Following sections 5 to 7, the cache holds the last successful fetch
    result, a failed fetch leaves it as it was and records the error, and
    [isFetching] holds exactly while a fetch is in flight. *)
Record QueryState : Type := mkQuery {
  data : option (list PaymentEvent);
  error : option exn;
  inFlight : nat
}.

Definition isFetching (q : QueryState) : bool := Nat.ltb 0 (inFlight q).

Definition isLoading (q : QueryState) : bool :=
  (isFetching q && match data q with None => true | Some _ => false end)%bool.

(** Modelled from the spec: on mount the restored cache entry, if any, is
    used as it is ([staleTime: Infinity]); otherwise the first fetch
    starts. *)
Definition mountQuery (cached : option (list PaymentEvent)) : QueryState :=
  match cached with
  | Some d => {| data := Some d; error := None; inFlight := 0 |}
  | None => {| data := None; error := None; inFlight := 1 |}
  end.

(** Modelled from the spec: [refetch()] starts a fetch of the "payments"
    key. *)
Definition refetch (q : QueryState) : QueryState :=
  {| data := data q; error := error q; inFlight := inFlight q + 1 |}.

(** Modelled from the spec: a fetch in flight settles with the outcome of
    [fetchPayments]. *)
Definition settle (q : QueryState) (r : result (list PaymentEvent)) : QueryState :=
  match inFlight q with
  | O => q
  | S n =>
      match r with
      | Ok l => {| data := Some l; error := None; inFlight := n |}
      | Throw e => {| data := data q; error := Some e; inFlight := n |}
      end
  end.

Record ColumnDef : Type := mkColumn {
  header : string;
  accessorKey : string
}.

(** The two column sets of the [columns] memo. *)
Definition columns (groupByChannel : bool) : list ColumnDef :=
  if groupByChannel then
    [ mkColumn "Channel ID" "channelId";
      mkColumn "Channel Title" "channelTitle";
      mkColumn "Total Amount" "totalAmount";
      mkColumn "Payment Count" "count" ]
  else
    [ mkColumn "ID" "id";
      mkColumn "Channel ID" "payeeChannel.id";
      mkColumn "Channel Title" "payeeChannel.title";
      mkColumn "Amount" "amount";
      mkColumn "Block" "inBlock";
      mkColumn "Rationale" "rationale" ].

Record ColumnSort : Type := mkSort {
  sort_id : string;
  desc : bool
}.

(** [initialState.sorting] of [useReactTable]. *)
Definition initialSorting : list ColumnSort := [ mkSort "totalAmount" true ].

Record AppState : Type := mkApp {
  query : QueryState;
  groupByChannel : bool;
  globalFilter : string;
  sorting : list ColumnSort
}.

Definition mount (cached : option (list PaymentEvent)) : AppState :=
  {| query := mountQuery cached;
     groupByChannel := true;
     globalFilter := "";
     sorting := initialSorting |}.

(** What the component returns. *)
Inductive view : Type :=
| LoadingView
| ErrorView (e : exn)
| ExplorerView (reloadDisabled : bool).

Definition render (st : AppState) : view :=
  if isLoading (query st) then LoadingView
  else
    match error (query st) with
    | Some e => ErrorView e
    | None => ExplorerView (isLoading (query st) || isFetching (query st))
    end.

Inductive event : Type :=
| ClickToggle                                   (* the group / ungroup button *)
| TypeFilter (text : string)                    (* the search input *)
| ClickReload                                   (* the "Reload data" button *)
| ClickHeader (next : list ColumnSort)          (* a header's sort toggle *)
| Settled (r : result (list PaymentEvent)).     (* a fetch in flight ends *)

Definition with_query (st : AppState) (q : QueryState) : AppState :=
  {| query := q;
     groupByChannel := groupByChannel st;
     globalFilter := globalFilter st;
     sorting := sorting st |}.

(** One event of the UI loop.  The controls exist only in the explorer
    view, and a disabled button dispatches no click. *)
Definition dispatch (st : AppState) (e : event) : AppState :=
  match e with
  | Settled r => with_query st (settle (query st) r)
  | _ =>
      match render st with
      | ExplorerView reloadDisabled =>
          match e with
          | ClickToggle =>
              {| query := query st;
                 groupByChannel := negb (groupByChannel st);
                 globalFilter := globalFilter st;
                 sorting := sorting st |}
          | TypeFilter text =>
              {| query := query st;
                 groupByChannel := groupByChannel st;
                 globalFilter := text;
                 sorting := sorting st |}
          | ClickReload =>
              if reloadDisabled then st else with_query st (refetch (query st))
          | ClickHeader next =>
              {| query := query st;
                 groupByChannel := groupByChannel st;
                 globalFilter := globalFilter st;
                 sorting := next |}
          | Settled _ => st
          end
      | _ => st
      end
  end.

Definition run (st : AppState) (events : list event) : AppState :=
  fold_left dispatch events st.

Definition is_sort_interaction (e : event) : bool :=
  match e with ClickHeader _ => true | _ => false end.

(** The column id the table derives from an accessor key: dots become
    underscores. *)
Definition column_id (c : ColumnDef) : string :=
  string_of_list_ascii
    (map (fun ch => if Ascii.eqb ch "." then "_"%char else ch)
         (list_ascii_of_string (accessorKey c))).

Definition find_column (cols : list ColumnDef) (cid : string) : option ColumnDef :=
  find (fun c => String.eqb (column_id c) cid) cols.

(** The column and direction the sorting state designates among the
    columns on display, if it is a single-column sort of one of them. *)
Definition sortedColumn (st : AppState) : option (ColumnDef * bool) :=
  match sorting st with
  | [s] =>
      match find_column (columns (groupByChannel st)) (sort_id s) with
      | Some c => Some (c, desc s)
      | None => None
      end
  | _ => None
  end.

(** The rows handed to the table: [data] of the component. *)
Inductive Row : Type :=
| GroupedRow (g : ChannelAggregate)
| FlatRow (p : PaymentEvent).

(** Both memos are evaluated at every render (a hook is never skipped), so
    an exception of [groupedPayments] aborts the render in either mode. *)
Definition tableData (st : AppState) : result (list Row) :=
  gs <- groupedPayments (data (query st)) ;;
  Ok (if groupByChannel st then map GroupedRow gs
      else map FlatRow (match data (query st) with Some l => l | None => [] end)).

(** ** Vocabulary of the statements *)

Definition sumZ (l : list Z) : Z := fold_right Z.add 0%Z l.

Definition sumNat (l : list nat) : nat := fold_right Nat.add 0 l.

(** The collection the aggregator works on. *)
Definition events (payments : option (list PaymentEvent)) : list PaymentEvent :=
  match payments with Some l => l | None => [] end.

Definition has_channel (k : string) (p : PaymentEvent) : bool :=
  match payeeChannel p with
  | Some ch => String.eqb (id ch) k
  | None => false
  end.

(** The first event of the collection paid to channel [k]. *)
Definition first_payment (k : string) (l : list PaymentEvent) : option PaymentEvent :=
  find (has_channel k) l.

(** The channel ids of the events that carry a channel, in order. *)
Fixpoint channel_ids (l : list PaymentEvent) : list string :=
  match l with
  | [] => []
  | p :: r =>
      match payeeChannel p with
      | Some ch => id ch :: channel_ids r
      | None => channel_ids r
      end
  end.

(** The distinct elements of a list in order of first occurrence. *)
Fixpoint first_seen (l : list string) : list string :=
  match l with
  | [] => []
  | k :: r => k :: filter (fun k' => negb (String.eqb k' k)) (first_seen r)
  end.

(** Numeric order of two array-index keys. *)
Definition index_le (k1 k2 : string) : Prop :=
  match JsObject.array_index k1, JsObject.array_index k2 with
  | Some n1, Some n2 => (n1 <= n2)%N
  | _, _ => False
  end.

Definition named (k : string) : bool := negb (JsObject.is_index k).

(** ** Vocabulary of the proofs *)

(** The sums held by the object under construction. *)
Definition totals (acc : Buckets) : Z := sumZ (map totalAmount (map snd acc)).

Definition counts (acc : Buckets) : nat := sumNat (map count (map snd acc)).

(** The bucket the reducer creates for a channel it meets for the first
    time, and the object once the bucket is there. *)
Definition fresh (k : string) (p : PaymentEvent) : ChannelAggregate :=
  {| channelId := k;
     channelTitle := title_or_unknown (payeeChannel p);
     totalAmount := 0;
     count := 0 |}.

Definition ensure (acc : Buckets) (k : string) (p : PaymentEvent) : Buckets :=
  match JsObject.get acc k with
  | Some _ => acc
  | None => JsObject.add acc k (fresh k p)
  end.

Definition mem (k : string) (l : list string) : bool := existsb (String.eqb k) l.

(** The invariant of the reduction.  After the events [seen] have been
    reduced into [acc]: the own keys of [acc] are the channel ids in order
    of first occurrence, and the bucket under [k] carries [k] and the title
    taken from the first event of channel [k]. *)
Definition reduced (seen : list PaymentEvent) (acc : Buckets) : Prop :=
  JsObject.keys acc = first_seen (channel_ids seen) /\
  forall k g, In (k, g) acc ->
    channelId g = k /\
    exists p, first_payment k seen = Some p /\
              channelTitle g = title_or_unknown (payeeChannel p).

(** Array-index entries carry their numeric value as a tag. *)
Definition tag_le {V : Type} (x y : N * (string * V)) : Prop :=
  (fst x <= fst y)%N.

Definition tagged {V : Type} (x : N * (string * V)) : Prop :=
  JsObject.array_index (fst (snd x)) = Some (fst x).

(** ** Sample inputs *)

Definition sample_event (cid : string) (t : option string) (a : string)
  : PaymentEvent :=
  mkPayment "0000001-000001" a "2024-03-01T12:00:00.000Z" 5760000
            (Some (mkChannel cid t)) None.

Definition sample_payments : list PaymentEvent :=
  [ sample_event "2" (Some "two") "5";
    sample_event "abc" None "7";
    sample_event "1" (Some "") "1";
    sample_event "2" (Some "later") "10" ].

Definition sample_aggregates : list ChannelAggregate :=
  [ mkAggregate "1" "Unknown" 1 1;
    mkAggregate "2" "two" 15 2;
    mkAggregate "abc" "Unknown" 7 1 ].

Definition full_page : list PaymentEvent :=
  repeat (sample_event "1" None "1") (Z.to_nat limit).

Definition short_page : list PaymentEvent :=
  repeat (sample_event "1" None "1") 3.

(** Pages of 5000, 5000 and 3 records. *)
Definition three_page_source : source :=
  fun _ offset =>
    if (offset <? 10000)%Z then Page full_page else Page short_page.

(** One full page, then a rejected request. *)
Definition failing_source : source :=
  fun _ offset =>
    if (offset <? 5000)%Z then Page full_page
    else Rejected (RequestError "Failed to fetch").

Definition rejecting_source : source :=
  fun _ _ => Rejected (RequestError "Failed to fetch").

(** A full page at every offset. *)
Definition endless_source : source := fun _ _ => Page full_page.

(** ** More of the component: cells, rows on screen *)

(** What a column accessor hands to a cell.  The columns are declared as
    [ColumnDef<any>], so [formatJoy] receives the string [amount] in flat
    mode and the bigint [totalAmount] in grouped mode. *)
Inductive AccessorValue : Type :=
| StringValue (s : string)
| BigIntValue (z : Z).

(** [BigInt(value)]: a bigint is returned as it is. *)
Definition BigIntOf (v : AccessorValue) : result Z :=
  match v with
  | StringValue s => BigInt s
  | BigIntValue z => Ok z
  end.

(** [formatJoy] at the value a cell passes to it. *)
Definition formatJoyOf (v : AccessorValue) : result string :=
  z <- BigIntOf v ;;
  Ok (Dnum.format z 10 2 ++ " JOY").

Inductive Cell : Type :=
| TextCell (text : string)
| LinkCell (href : string) (text : option string).

(** [`https://gleev.xyz/channel/${id}`]. *)
Definition channelHref (cid : string) : string :=
  "https://gleev.xyz/channel/" ++ cid.

(** The [cell] renderers of the grouped columns. *)
Definition groupedTitleCell (g : ChannelAggregate) : result Cell :=
  Ok (LinkCell (channelHref (channelId g)) (Some (channelTitle g))).

Definition groupedAmountCell (g : ChannelAggregate) : result Cell :=
  text <- formatJoyOf (BigIntValue (totalAmount g)) ;;
  Ok (TextCell text).

(** The [cell] renderers of the flat columns.  The title cell reads
    [cell.row.original.payeeChannel.id] before anything else. *)
Definition flatTitleCell (p : PaymentEvent) : result Cell :=
  match payeeChannel p with
  | Some ch => Ok (LinkCell (channelHref (id ch)) (title ch))
  | None => Throw TypeError
  end.

Definition flatAmountCell (p : PaymentEvent) : result Cell :=
  text <- formatJoyOf (StringValue (amount p)) ;;
  Ok (TextCell text).

(** The cells of a row that go through a renderer of the component. *)
Definition renderedCells (r : Row) : list (result Cell) :=
  match r with
  | GroupedRow g => [ groupedTitleCell g; groupedAmountCell g ]
  | FlatRow p => [ flatTitleCell p; flatAmountCell p ]
  end.

(** An item of [rowVirtualizer.getVirtualItems()]: the row it stands for,
    its offset from the top of the list and its height, in pixels. *)
Module Virtual.

Record Item : Type := mkItem {
  index : nat;
  start : Z;
  size : Z
}.

End Virtual.

Definition ROW_HEIGHT : Z := 37.

(** The [translateY] of the row rendered for [virtualRow] at position
    [index] of the virtual items. *)
Definition translateY (virtualRow : Virtual.Item) (index : nat) : Z :=
  (Virtual.start virtualRow - Z.of_nat index * Virtual.size virtualRow)%Z.

(** The virtual items of a list of rows of one height: the rows
    [first], [first + 1], ... in order, each starting at its index times
    the height. *)
Fixpoint window (height : Z) (first : nat) (items : list Virtual.Item) : Prop :=
  match items with
  | [] => True
  | it :: rest =>
      Virtual.index it = first /\
      Virtual.size it = height /\
      Virtual.start it = (Z.of_nat first * height)%Z /\
      window height (S first) rest
  end.

(** ** More vocabulary *)

(** The integer an event's amount stands for (0 when it stands for none). *)
Definition amount_value (p : PaymentEvent) : Z :=
  match BigInt (amount p) with
  | Ok a => a
  | Throw _ => 0%Z
  end.

(** The events paid to channel [k], in order. *)
Definition paid_to (k : string) (l : list PaymentEvent) : list PaymentEvent :=
  filter (has_channel k) l.

(** An event the reducer accepts: it carries a channel whose id is no
    property name of [Object.prototype], and an amount [BigInt] reads. *)
Definition acceptable (p : PaymentEvent) : bool :=
  match payeeChannel p with
  | Some ch =>
      (negb (JsObject.inherited (id ch)) &&
       match JsBigInt.parse (amount p) with Some _ => true | None => false end)%bool
  | None => false
  end.

(** Each bucket holds the sum and the number of the events seen for its
    channel. *)
Definition tallied (seen : list PaymentEvent) (acc : Buckets) : Prop :=
  forall k g, In (k, g) acc ->
    totalAmount g = sumZ (map amount_value (paid_to k seen)) /\
    count g = List.length (paid_to k seen).

(** The slice of a collection a limit / offset query selects. *)
Definition slice (db : list PaymentEvent) (lim off : Z) : list PaymentEvent :=
  firstn (Z.to_nat lim) (skipn (Z.to_nat off) db).

(** An endpoint serving the fixed collection [db]. *)
Definition paged (db : list PaymentEvent) : source :=
  fun lim off => Page (slice db lim off).

Definition is_view_event (e : event) : bool :=
  match e with
  | ClickToggle | TypeFilter _ | ClickHeader _ => true
  | ClickReload | Settled _ => false
  end.

(** * Properties *)

(** ** The embedding at a few inputs *)

Example BigInt_decimal : BigInt "12345678901234" = Ok 12345678901234%Z.
Proof. reflexivity. Qed.

Example BigInt_empty : BigInt "" = Ok 0%Z.
Proof. reflexivity. Qed.

Example BigInt_padded_hex : BigInt "  0x1F " = Ok 31%Z.
Proof. reflexivity. Qed.

Example BigInt_fraction : BigInt "1.5" = Throw SyntaxError.
Proof. reflexivity. Qed.

Example BigInt_signed_hex : BigInt "-0x10" = Throw SyntaxError.
Proof. reflexivity. Qed.

Example groupedPayments_sample :
  groupedPayments (Some sample_payments) = Ok sample_aggregates.
Proof. reflexivity. Qed.

Example groupedPayments_undefined : groupedPayments None = Ok [].
Proof. reflexivity. Qed.

Example groupedPayments_inherited_key :
  groupedPayments (Some [ sample_event "constructor" None "5" ]) = Throw TypeError.
Proof. reflexivity. Qed.

Example groupedPayments_bad_amount :
  groupedPayments (Some [ sample_event "7" None "1e3" ]) = Throw SyntaxError.
Proof. reflexivity. Qed.

Example fetchPayments_exact_multiple :
  fst (fetchPayments (fun _ offset =>
         if (offset <? 10000)%Z then Page full_page else Page []) 5) =
    [0; 5000; 10000]%Z.
Proof. vm_compute. reflexivity. Qed.

(** ** The object model *)

Section ObjectFacts.

Variable V : Type.
Implicit Types (o : JsObject.t V) (k : string) (f : V -> V).

Lemma keys_update o k f : JsObject.keys (JsObject.update o k f) = JsObject.keys o.
Proof.
  unfold JsObject.keys.
  induction o as [|[k' v] r IH]; simpl; [reflexivity|].
  destruct (String.eqb k k'); simpl; [reflexivity|].
  now rewrite IH.
Qed.

Lemma keys_add o k (v : V) :
  JsObject.keys (JsObject.add o k v) = (JsObject.keys o ++ [k])%list.
Proof. unfold JsObject.keys, JsObject.add. now rewrite map_app. Qed.

Lemma get_none_iff o k : JsObject.get o k = None <-> ~ In k (JsObject.keys o).
Proof.
  induction o as [|[k' v] r IH]; simpl.
  - tauto.
  - destruct (String.eqb_spec k k') as [->|Hne].
    + split; [discriminate|]. intros H. exfalso. apply H. now left.
    + rewrite IH. unfold JsObject.keys. split.
      * intros H [E|HI]; [now apply Hne|now apply H].
      * intros H HI. apply H. now right.
Qed.

Lemma get_add_same o k (v : V) :
  JsObject.get o k = None -> JsObject.get (JsObject.add o k v) k = Some v.
Proof.
  unfold JsObject.add.
  induction o as [|[k' v'] r IH]; simpl.
  - now rewrite String.eqb_refl.
  - destruct (String.eqb k k'); [discriminate|]. exact IH.
Qed.

(** What an update does to the stored values: the first entry under [k]
    is replaced, the others stay in place. *)
Lemma update_split o k f v :
  JsObject.get o k = Some v ->
  exists o1 o2,
    o = (o1 ++ (k, v) :: o2)%list /\
    JsObject.update o k f = (o1 ++ (k, f v) :: o2)%list /\
    ~ In k (JsObject.keys o1).
Proof.
  induction o as [|[k' v'] r IH]; simpl; [discriminate|].
  destruct (String.eqb_spec k k') as [->|Hne].
  - intros [= ->]. exists [], r. simpl. auto.
  - intros H. destruct (IH H) as (o1 & o2 & -> & -> & Hn).
    exists ((k', v') :: o1), o2. simpl. repeat split; auto.
    intros [E|HI]; [now apply Hne|now apply Hn].
Qed.

Lemma insert_index_perm (n : N) (e : string * V) l :
  Permutation (JsObject.insert_index n e l) ((n, e) :: l).
Proof.
  induction l as [|[m e'] r IH]; simpl; [apply Permutation_refl|].
  destruct (n <? m)%N; [apply Permutation_refl|].
  eapply perm_trans; [apply perm_skip, IH|apply perm_swap].
Qed.

Lemma index_entries_perm o :
  Permutation (map snd (JsObject.index_entries o))
              (filter (fun e => JsObject.is_index (fst e)) o).
Proof.
  induction o as [|[k v] r IH]; simpl; [constructor|].
  unfold JsObject.is_index at 1. simpl.
  destruct (JsObject.array_index k) as [n|]; [|exact IH].
  eapply perm_trans.
  - apply Permutation_map, insert_index_perm.
  - simpl. now apply perm_skip.
Qed.

Lemma partition_perm (A : Type) (p : A -> bool) (l : list A) :
  Permutation (filter p l ++ filter (fun x => negb (p x)) l) l.
Proof.
  induction l as [|x r IH]; simpl; [constructor|].
  destruct (p x); simpl.
  - now apply perm_skip.
  - eapply perm_trans; [apply Permutation_sym, Permutation_middle|].
    now apply perm_skip.
Qed.

Lemma entries_perm o : Permutation (JsObject.entries o) o.
Proof.
  unfold JsObject.entries, JsObject.named_entries.
  eapply perm_trans; [|apply (partition_perm (fun e => JsObject.is_index (fst e)))].
  apply Permutation_app_tail, index_entries_perm.
Qed.

Lemma values_perm o : Permutation (JsObject.values o) (map snd o).
Proof. apply Permutation_map, entries_perm. Qed.

End ObjectFacts.

(** ** The aggregator *)

Lemma sumZ_app l1 l2 : sumZ (l1 ++ l2) = (sumZ l1 + sumZ l2)%Z.
Proof. induction l1; simpl; lia. Qed.

Lemma sumNat_app l1 l2 : sumNat (l1 ++ l2) = sumNat l1 + sumNat l2.
Proof. induction l1; simpl; lia. Qed.

Lemma sumZ_perm l1 l2 : Permutation l1 l2 -> sumZ l1 = sumZ l2.
Proof. induction 1; simpl; lia. Qed.

Lemma sumNat_perm l1 l2 : Permutation l1 l2 -> sumNat l1 = sumNat l2.
Proof. induction 1; simpl; lia. Qed.

(** A successful call of the reducer, read backwards. *)
Lemma reducer_ok acc p acc' :
  reducer acc p = Ok acc' ->
  exists ch a,
    payeeChannel p = Some ch /\
    JsObject.inherited (id ch) = false /\
    BigInt (amount p) = Ok a /\
    acc' = JsObject.update (ensure acc (id ch) p) (id ch) (bump a).
Proof.
  unfold reducer, payee_id.
  destruct (payeeChannel p) as [ch|] eqn:Hch; simpl; [|discriminate].
  destruct (JsObject.inherited (id ch)) eqn:Hin.
  - destruct (BigInt (amount p)); simpl; discriminate.
  - destruct (BigInt (amount p)) as [a|e] eqn:Ha; simpl; [|discriminate].
    intros [= <-]. exists ch, a. repeat split; auto.
    unfold ensure, fresh. now rewrite Hch.
Qed.

Lemma ensure_get acc k p : exists g, JsObject.get (ensure acc k p) k = Some g.
Proof.
  unfold ensure. destruct (JsObject.get acc k) as [g|] eqn:E.
  - now exists g.
  - exists (fresh k p). now apply get_add_same.
Qed.

Lemma ensure_totals acc k p :
  totals (ensure acc k p) = totals acc /\ counts (ensure acc k p) = counts acc.
Proof.
  unfold ensure, totals, counts, JsObject.add.
  destruct (JsObject.get acc k); [auto|].
  rewrite !map_app, sumZ_app, sumNat_app. simpl. lia.
Qed.

Lemma bump_totals acc k a g :
  JsObject.get acc k = Some g ->
  totals (JsObject.update acc k (bump a)) = (totals acc + a)%Z /\
  counts (JsObject.update acc k (bump a)) = counts acc + 1.
Proof.
  intros H. destruct (@update_split _ _ _ (bump a) _ H) as (o1 & o2 & E1 & E2 & _).
  rewrite E2. subst acc. unfold totals, counts.
  rewrite !map_app, !sumZ_app, !sumNat_app. simpl. lia.
Qed.

Lemma reducer_totals acc p acc' :
  reducer acc p = Ok acc' ->
  exists a, BigInt (amount p) = Ok a /\
            totals acc' = (totals acc + a)%Z /\ counts acc' = counts acc + 1.
Proof.
  intros H. destruct (reducer_ok _ _ H) as (ch & a & _ & _ & Ha & ->).
  exists a. split; [exact Ha|].
  destruct (ensure_get acc (id ch) p) as [g Hg].
  destruct (@bump_totals _ _ a _ Hg) as [-> ->].
  destruct (ensure_totals acc (id ch) p) as [-> ->]. auto.
Qed.

Lemma reduce_totals l : forall acc acc',
  reduce acc l = Ok acc' ->
  exists amounts,
    Forall2 (fun p a => BigInt (amount p) = Ok a) l amounts /\
    totals acc' = (totals acc + sumZ amounts)%Z /\
    counts acc' = counts acc + List.length l.
Proof.
  induction l as [|p r IH]; simpl; intros acc acc' H.
  - injection H as <-. exists []. split; [constructor|]. simpl. split; lia.
  - destruct (reducer acc p) as [acc1|e] eqn:E; simpl in H; [|discriminate].
    destruct (reducer_totals _ _ E) as (a & Ha & Ht & Hc).
    destruct (IH _ _ H) as (amounts & HF & Ht' & Hc').
    exists (a :: amounts). split; [now constructor|]. simpl. split; lia.
Qed.

(** C1. Conservation: whenever the aggregator produces its aggregates, the
    amount of every input event is an integer literal, the [totalAmount]s
    add up (in unbounded integers) to the sum of these amounts, and the
    [count]s add up to the number of input events. *)
Theorem groupedPayments_conservation :
  forall (payments : option (list PaymentEvent)) (aggs : list ChannelAggregate),
    groupedPayments payments = Ok aggs ->
    exists amounts,
      Forall2 (fun p a => BigInt (amount p) = Ok a) (events payments) amounts /\
      sumZ (map totalAmount aggs) = sumZ amounts /\
      sumNat (map count aggs) = List.length (events payments).
Proof.
  intros [l|] aggs H; simpl in *.
  - destruct (reduce JsObject.empty l) as [acc|e] eqn:E; simpl in H; [|discriminate].
    injection H as <-.
    destruct (reduce_totals _ _ E) as (amounts & HF & Ht & Hc).
    exists amounts. split; [exact HF|].
    pose proof (values_perm acc) as HP.
    rewrite (sumZ_perm (Permutation_map totalAmount HP)).
    rewrite (sumNat_perm (Permutation_map count HP)).
    unfold totals, counts in *. simpl in *. split; lia.
  - injection H as <-. exists []. split; [constructor|]. split; reflexivity.
Qed.

(** *** First occurrences *)

Lemma mem_In k l : mem k l = true <-> In k l.
Proof.
  unfold mem. rewrite existsb_exists. split.
  - intros (x & Hx & E). apply String.eqb_eq in E. now subst.
  - intros H. exists k. split; [exact H|apply String.eqb_refl].
Qed.

Lemma first_seen_In k l : In k (first_seen l) <-> In k l.
Proof.
  induction l as [|x r IH]; simpl; [tauto|].
  rewrite filter_In, IH. destruct (String.eqb_spec k x) as [->|Hne]; simpl.
  - split; auto.
  - split.
    + intros [E|[H _]]; auto.
    + intros [E|H]; [now left|right; auto].
Qed.

Lemma first_seen_NoDup l : NoDup (first_seen l).
Proof.
  induction l as [|x r IH]; simpl; constructor.
  - rewrite filter_In. intros [_ H]. now rewrite String.eqb_refl in H.
  - now apply NoDup_filter.
Qed.

Lemma first_seen_snoc l k :
  first_seen (l ++ [k]) =
  if mem k l then first_seen l else (first_seen l ++ [k])%list.
Proof.
  induction l as [|x r IH]; simpl; [reflexivity|].
  rewrite IH. destruct (String.eqb_spec k x) as [->|Hne]; simpl.
  - destruct (mem x r); [reflexivity|].
    rewrite filter_app. simpl. rewrite String.eqb_refl. simpl.
    now rewrite app_nil_r.
  - destruct (mem k r); [reflexivity|].
    rewrite filter_app. simpl.
    destruct (String.eqb_spec k x) as [E|_]; [contradiction|]. reflexivity.
Qed.

Lemma channel_ids_app l1 l2 :
  channel_ids (l1 ++ l2) = (channel_ids l1 ++ channel_ids l2)%list.
Proof.
  induction l1 as [|p r IH]; simpl; [reflexivity|].
  destruct (payeeChannel p); simpl; now rewrite IH.
Qed.

Lemma first_payment_app k l1 l2 :
  first_payment k (l1 ++ l2) =
  match first_payment k l1 with
  | Some p => Some p
  | None => first_payment k l2
  end.
Proof.
  unfold first_payment. induction l1 as [|p r IH]; simpl; [reflexivity|].
  destruct (has_channel k p); [reflexivity|exact IH].
Qed.

Lemma first_payment_none k l :
  ~ In k (channel_ids l) -> first_payment k l = None.
Proof.
  unfold first_payment, has_channel.
  induction l as [|p r IH]; simpl; [reflexivity|].
  destruct (payeeChannel p) as [ch|]; simpl.
  - intros H. destruct (String.eqb_spec (id ch) k) as [E|_].
    + exfalso. apply H. now left.
    + apply IH. intros HI. apply H. now right.
  - exact IH.
Qed.

Lemma first_payment_channel k l p :
  first_payment k l = Some p ->
  In p l /\ exists ch, payeeChannel p = Some ch /\ id ch = k.
Proof.
  unfold first_payment. intros H. apply find_some in H.
  destruct H as [HI H]. split; [exact HI|].
  unfold has_channel in H. destruct (payeeChannel p) as [ch|]; [|discriminate].
  exists ch. split; [reflexivity|]. now apply String.eqb_eq.
Qed.

(** *** The invariant of the reduction *)

Lemma update_In (V : Type) (o : JsObject.t V) k f k' v' :
  In (k', v') (JsObject.update o k f) ->
  exists v, In (k', v) o /\ (v' = v \/ v' = f v).
Proof.
  induction o as [|[k0 v0] r IH]; simpl; [tauto|].
  destruct (String.eqb k k0).
  - intros [[= <- <-]|H].
    + exists v0. auto.
    + exists v'. auto.
  - intros [[= <- <-]|H].
    + exists v0. auto.
    + destruct (IH H) as (v & Hv & E). exists v. auto.
Qed.

Lemma reduced_empty : reduced [] JsObject.empty.
Proof. split; [reflexivity|]. intros k g []. Qed.

Lemma reduced_step seen acc p acc' :
  reduced seen acc -> reducer acc p = Ok acc' -> reduced (seen ++ [p]) acc'.
Proof.
  intros [Hk Hb] H.
  destruct (reducer_ok _ _ H) as (ch & a & Hch & _ & _ & ->).
  assert (Hids : channel_ids (seen ++ [p]) = (channel_ids seen ++ [id ch])%list).
  { rewrite channel_ids_app. simpl. now rewrite Hch. }
  split.
  - rewrite keys_update, Hids, first_seen_snoc. unfold ensure.
    destruct (JsObject.get acc (id ch)) as [g|] eqn:Hg.
    + assert (HI : In (id ch) (JsObject.keys acc)).
      { destruct (in_dec string_dec (id ch) (JsObject.keys acc)) as [HI|HI]; auto.
        apply get_none_iff in HI. congruence. }
      rewrite Hk, first_seen_In in HI. apply mem_In in HI. now rewrite HI.
    + rewrite keys_add, Hk.
      apply get_none_iff in Hg. rewrite Hk, first_seen_In in Hg.
      destruct (mem (id ch) (channel_ids seen)) eqn:Hm; [|reflexivity].
      apply mem_In in Hm. contradiction.
  - intros k g' HI. apply update_In in HI. destruct HI as (g & HI & Hg').
    assert (Hsame : channelId g' = channelId g /\ channelTitle g' = channelTitle g).
    { destruct Hg' as [->| ->]; auto. }
    destruct Hsame as [-> ->]. rewrite first_payment_app.
    unfold ensure in HI.
    destruct (JsObject.get acc (id ch)) as [g0|] eqn:Hg.
    + destruct (Hb _ _ HI) as (E & p0 & Hp0 & Ht). split; [exact E|].
      exists p0. now rewrite Hp0.
    + unfold JsObject.add in HI. apply in_app_or in HI. destruct HI as [HI|HI].
      * destruct (Hb _ _ HI) as (E & p0 & Hp0 & Ht). split; [exact E|].
        exists p0. now rewrite Hp0.
      * destruct HI as [[= <- <-]|[]]. split; [reflexivity|].
        apply get_none_iff in Hg. rewrite Hk, first_seen_In in Hg.
        rewrite (first_payment_none _ _ Hg). exists p. split; [|reflexivity].
        unfold first_payment, has_channel. simpl. rewrite Hch.
        now rewrite String.eqb_refl.
Qed.

Lemma reduced_reduce l : forall seen acc acc',
  reduced seen acc -> reduce acc l = Ok acc' -> reduced (seen ++ l) acc'.
Proof.
  induction l as [|p r IH]; simpl; intros seen acc acc' Hinv H.
  - injection H as <-. now rewrite app_nil_r.
  - destruct (reducer acc p) as [acc1|e] eqn:E; simpl in H; [|discriminate].
    replace (seen ++ p :: r)%list with ((seen ++ [p]) ++ r)%list
      by now rewrite <- app_assoc.
    eapply IH; [|exact H]. eapply reduced_step; eauto.
Qed.

(** Every event of a successfully reduced collection carries a channel. *)
Lemma reduce_channels l : forall acc acc',
  reduce acc l = Ok acc' -> Forall (fun p => payeeChannel p <> None) l.
Proof.
  induction l as [|p r IH]; simpl; intros acc acc' H; [constructor|].
  destruct (reducer acc p) as [acc1|e] eqn:E; simpl in H; [|discriminate].
  constructor; [|eapply IH; eauto].
  destruct (reducer_ok _ _ E) as (ch & _ & Hch & _). congruence.
Qed.

(** *** The order of [Object.values] *)

Section ValuesOrder.

Variable V : Type.
Implicit Types (o : JsObject.t V).

Lemma insert_index_In n (e : string * V) l x :
  In x (JsObject.insert_index n e l) -> x = (n, e) \/ In x l.
Proof.
  intros H. apply (Permutation_in _ (insert_index_perm n e l)) in H.
  destruct H; auto.
Qed.

Lemma insert_index_sorted n (e : string * V) l :
  StronglySorted tag_le l -> StronglySorted tag_le (JsObject.insert_index n e l).
Proof.
  induction 1 as [|[m e'] r Hr IH Hall]; simpl.
  - constructor; constructor.
  - destruct (N.ltb_spec n m) as [Hlt|Hge].
    + constructor; [now constructor|]. constructor.
      * unfold tag_le; simpl; lia.
      * eapply Forall_impl; [|exact Hall]. unfold tag_le; simpl; intros; lia.
    + constructor; [exact IH|]. apply Forall_forall. intros x Hx.
      apply insert_index_In in Hx. destruct Hx as [->|Hx].
      * unfold tag_le; simpl; lia.
      * rewrite Forall_forall in Hall. now apply Hall.
Qed.

Lemma index_entries_sorted o : StronglySorted tag_le (JsObject.index_entries o).
Proof.
  induction o as [|[k v] r IH]; simpl; [constructor|].
  destruct (JsObject.array_index k); [now apply insert_index_sorted|exact IH].
Qed.

Lemma index_entries_tagged o : Forall tagged (JsObject.index_entries o).
Proof.
  induction o as [|[k v] r IH]; simpl; [constructor|].
  destruct (JsObject.array_index k) as [n|] eqn:E; [|exact IH].
  apply Forall_forall. intros x Hx. apply insert_index_In in Hx.
  destruct Hx as [->|Hx]; [exact E|].
  rewrite Forall_forall in IH. now apply IH.
Qed.

Lemma tagged_sorted (l : list (N * (string * V))) :
  StronglySorted tag_le l -> Forall tagged l ->
  StronglySorted index_le (map (fun x => fst (snd x)) l).
Proof.
  induction 1 as [|x r Hr IH Hall]; intros Ht; simpl; constructor.
  - apply IH. now inversion Ht.
  - inversion Ht as [|? ? Hx Hrest]; subst.
    apply Forall_forall. intros k Hk. apply in_map_iff in Hk.
    destruct Hk as (y & <- & Hy).
    rewrite Forall_forall in Hall, Hrest.
    unfold index_le. rewrite Hx, (Hrest _ Hy). now apply Hall.
Qed.

Lemma map_fst_filter (p : string -> bool) o :
  map fst (filter (fun e => p (fst e)) o) = filter p (map fst o).
Proof.
  induction o as [|[k v] r IH]; simpl; [reflexivity|].
  destruct (p k); simpl; now rewrite IH.
Qed.

(** The own keys in the order [Object.values] follows. *)
Lemma entries_keys o :
  exists idx,
    JsObject.keys (JsObject.entries o) =
      (idx ++ filter named (JsObject.keys o))%list /\
    Permutation idx (filter JsObject.is_index (JsObject.keys o)) /\
    StronglySorted index_le idx.
Proof.
  exists (map (fun x => fst (snd x)) (JsObject.index_entries o)).
  split; [|split].
  - unfold JsObject.keys, JsObject.entries, JsObject.named_entries.
    rewrite map_app, map_map. f_equal.
    apply (map_fst_filter named).
  - unfold JsObject.keys. rewrite <- (map_fst_filter JsObject.is_index).
    rewrite <- map_map. apply Permutation_map, index_entries_perm.
  - apply tagged_sorted; [apply index_entries_sorted|apply index_entries_tagged].
Qed.

End ValuesOrder.

Lemma values_channelIds (E : Buckets) :
  (forall k g, In (k, g) E -> channelId g = k) ->
  map channelId (map snd E) = JsObject.keys E.
Proof.
  unfold JsObject.keys.
  induction E as [|[k g] r IH]; simpl; intros H; [reflexivity|].
  rewrite (H k g) by now left. f_equal. apply IH. intros; apply H; now right.
Qed.

(** What [groupedPayments] returns, in terms of the reduced object. *)
Lemma groupedPayments_ok payments aggs :
  groupedPayments payments = Ok aggs ->
  exists acc,
    reduced (events payments) acc /\
    aggs = JsObject.values acc /\
    Forall (fun p => payeeChannel p <> None) (events payments).
Proof.
  destruct payments as [l|]; simpl.
  - destruct (reduce JsObject.empty l) as [acc|e] eqn:E; simpl; [|discriminate].
    intros [= <-]. exists acc. split; [|split; [reflexivity|]].
    + eapply (reduced_reduce l (seen := [])); [apply reduced_empty|exact E].
    + eapply reduce_channels; eauto.
  - intros [= <-]. exists JsObject.empty.
    split; [apply reduced_empty|split; [reflexivity|constructor]].
Qed.

(** C10. Titles: the [channelTitle] of every aggregate is the title carried
    by the first event of its channel, replaced by "Unknown" when that title
    is absent or empty; the titles of later events of the channel play no
    part. *)
Theorem groupedPayments_first_title :
  forall (payments : option (list PaymentEvent)) (aggs : list ChannelAggregate)
         (g : ChannelAggregate),
    groupedPayments payments = Ok aggs ->
    In g aggs ->
    exists p ch,
      first_payment (channelId g) (events payments) = Some p /\
      payeeChannel p = Some ch /\
      id ch = channelId g /\
      channelTitle g =
        match title ch with
        | Some t => if String.eqb t "" then "Unknown" else t
        | None => "Unknown"
        end.
Proof.
  intros payments aggs g H HI.
  destruct (groupedPayments_ok _ H) as (acc & [_ Hb] & -> & _).
  apply (Permutation_in _ (values_perm acc)) in HI.
  apply in_map_iff in HI. destruct HI as ([k g'] & E & HI). simpl in E. subst g'.
  destruct (Hb _ _ HI) as (Hk & p & Hp & Ht). subst k.
  destruct (first_payment_channel _ _ Hp) as (_ & ch & Hch & Hid).
  exists p, ch. repeat split; auto.
  rewrite Ht. unfold title_or_unknown. now rewrite Hch.
Qed.

(** C5, as amended. Order: there is exactly one aggregate per channel id
    observed; those whose id is an array index (the canonical decimal form
    of an integer below 2^32 - 1) come first, in ascending numeric order,
    and the others follow in order of first occurrence. *)
Theorem groupedPayments_order :
  forall (payments : option (list PaymentEvent)) (aggs : list ChannelAggregate),
    groupedPayments payments = Ok aggs ->
    exists idx,
      map channelId aggs =
        (idx ++ filter named (first_seen (channel_ids (events payments))))%list /\
      Permutation idx
        (filter JsObject.is_index (first_seen (channel_ids (events payments)))) /\
      StronglySorted index_le idx /\
      NoDup (map channelId aggs) /\
      (forall k, In k (map channelId aggs) <->
                 In k (channel_ids (events payments))).
Proof.
  intros payments aggs H.
  destruct (groupedPayments_ok _ H) as (acc & [Hk Hb] & -> & _).
  assert (Hids : map channelId (JsObject.values acc) =
                 JsObject.keys (JsObject.entries acc)).
  { apply values_channelIds. intros k g HI. apply Hb.
    now apply (Permutation_in _ (entries_perm acc)). }
  assert (HP : Permutation (JsObject.keys (JsObject.entries acc))
                           (first_seen (channel_ids (events payments)))).
  { rewrite <- Hk. apply Permutation_map, entries_perm. }
  destruct (entries_keys acc) as (idx & E & Hperm & Hsorted).
  exists idx. rewrite Hids. rewrite <- Hk. repeat split; auto.
  - apply (Permutation_NoDup (Permutation_sym HP)), first_seen_NoDup.
  - intros HI. apply first_seen_In. now apply (Permutation_in _ HP).
  - intros HI. apply (Permutation_in _ (Permutation_sym HP)).
    now apply first_seen_In.
Qed.

(** ** The pagination fetcher *)

Lemma offset_of_succ k : (offset_of k + limit)%Z = offset_of (S k).
Proof. unfold offset_of. lia. Qed.

(** The loop keeps running as long as no request stops it. *)
Lemma fetch_loop_running request : forall fuel acc k,
  (forall j, j < fuel -> stops request (k + j) = false) ->
  snd (fetch_loop request fuel acc (offset_of k)) = None.
Proof.
  induction fuel as [|fuel IH]; intros acc k H; simpl; [reflexivity|].
  pose proof (H 0 ltac:(lia)) as H0. rewrite Nat.add_0_r in H0.
  unfold stops in H0.
  destruct (request limit (offset_of k)) as [p|e]; [|discriminate].
  rewrite H0, offset_of_succ.
  specialize (IH (acc ++ p)%list (S k)).
  destruct (fetch_loop request fuel (acc ++ p) (offset_of (S k))) as [tr o].
  simpl. apply IH. intros j Hj.
  replace (S k + j) with (k + S j) by lia. apply H. lia.
Qed.

(** The run up to the first request that stops the loop. *)
Lemma fetch_loop_run request : forall n acc k fuel,
  (forall j, j < n -> stops request (k + j) = false) ->
  stops request (k + n) = true ->
  n < fuel ->
  fetch_loop request fuel acc (offset_of k) =
    (map offset_of (seq k (S n)),
     Some match request limit (offset_of (k + n)) with
          | Rejected e => Throw e
          | Page _ => Ok (acc ++ pages_from request k (S n))%list
          end).
Proof.
  induction n as [|n IH]; intros acc k fuel Hrun Hstop Hfuel;
    (destruct fuel as [|fuel]; [lia|]); simpl.
  - rewrite Nat.add_0_r in *. unfold stops in Hstop. unfold page_at.
    destruct (request limit (offset_of k)) as [p|e]; [|reflexivity].
    rewrite Hstop. now rewrite app_nil_r.
  - pose proof (Hrun 0 ltac:(lia)) as H0. rewrite Nat.add_0_r in H0.
    unfold stops in H0. unfold page_at at 1.
    destruct (request limit (offset_of k)) as [p|e]; [|discriminate].
    rewrite H0, offset_of_succ.
    rewrite (IH (acc ++ p)%list (S k) fuel).
    + replace (S k + n) with (k + S n) by lia.
      destruct (request limit (offset_of (k + S n))); [|reflexivity].
      simpl. now rewrite <- app_assoc.
    + intros j Hj. replace (S k + j) with (k + S j) by lia. apply Hrun. lia.
    + replace (S k + n) with (k + S n) by lia. exact Hstop.
    + lia.
Qed.

(** Within [fuel] requests either none stops the loop or there is a first
    one that does. *)
Lemma first_stop request : forall fuel,
  (forall j, j < fuel -> stops request j = false) \/
  (exists n, n < fuel /\ stops request n = true /\
             forall j, j < n -> stops request j = false).
Proof.
  induction fuel as [|fuel [IH|IH]].
  - left. intros j Hj. lia.
  - destruct (stops request fuel) eqn:E.
    + right. exists fuel. repeat split; auto.
    + left. intros j Hj. destruct (Nat.eq_dec j fuel) as [->|Hne]; auto.
      apply IH. lia.
  - right. destruct IH as (n & Hn & Hs & Hb). exists n. repeat split; auto.
Qed.

Lemma fetchPayments_running request fuel :
  (forall j, j < fuel -> stops request j = false) ->
  snd (fetchPayments request fuel) = None.
Proof. intros H. apply (@fetch_loop_running request fuel [] 0). exact H. Qed.

Lemma fetchPayments_run request n fuel :
  (forall j, j < n -> stops request j = false) ->
  stops request n = true ->
  n < fuel ->
  fetchPayments request fuel =
    (map offset_of (seq 0 (S n)),
     Some match request limit (offset_of n) with
          | Rejected e => Throw e
          | Page _ => Ok (pages_from request 0 (S n))
          end).
Proof. intros H1 H2 H3. apply (@fetch_loop_run request n [] 0 fuel); auto. Qed.

(** C9, as amended. Termination: the loop ends if and only if some request,
    at an offset that is a multiple of 5000, is rejected or returns fewer
    than 5000 records; it ends with a result if and only if the first such
    request returns a page (of fewer than 5000 records); and for a source
    that answers every offset with exactly 5000 records it never ends. *)
Theorem fetchPayments_termination :
  forall request : source,
    (terminates request <-> exists k, stops request k = true) /\
    (returns request <->
       exists k p, request limit (offset_of k) = Page p /\
                   (Z.of_nat (List.length p) < limit)%Z /\
                   forall j, j < k -> stops request j = false) /\
    ((forall offset, exists p, request limit offset = Page p /\
                               Z.of_nat (List.length p) = limit) ->
     ~ terminates request).
Proof.
  intros request. split; [|split].
  - split.
    + intros [fuel H]. destruct (first_stop request fuel) as [Hr|(n & _ & Hs & _)].
      * now rewrite (@fetchPayments_running request fuel Hr) in H.
      * now exists n.
    + intros [k Hk]. destruct (first_stop request (S k)) as [Hr|(n & Hn & Hs & Hb)].
      * rewrite Hr in Hk by lia. discriminate.
      * exists (S n). rewrite (@fetchPayments_run request _ _ Hb Hs (Nat.lt_succ_diag_r n)).
        discriminate.
  - split.
    + intros (fuel & l & H).
      destruct (first_stop request fuel) as [Hr|(n & Hn & Hs & Hb)].
      * rewrite (@fetchPayments_running request fuel Hr) in H. discriminate.
      * rewrite (@fetchPayments_run request _ _ Hb Hs Hn) in H. simpl in H.
        unfold stops in Hs.
        destruct (request limit (offset_of n)) as [p|e] eqn:E; [|discriminate].
        exists n, p. repeat split; auto. now apply Z.ltb_lt.
    + intros (k & p & Hp & Hlen & Hb).
      assert (Hs : stops request k = true).
      { unfold stops. rewrite Hp. now apply Z.ltb_lt. }
      exists (S k), (pages_from request 0 (S k)).
      rewrite (@fetchPayments_run request _ _ Hb Hs (Nat.lt_succ_diag_r k)).
      simpl. now rewrite Hp.
  - intros Hfull [fuel H]. apply H. apply fetchPayments_running.
    intros j _. unfold stops.
    destruct (Hfull (offset_of j)) as (p & -> & ->). apply Z.ltb_irrefl.
Qed.

(** C4. Pagination: for a source whose pages at offsets 0, 5000 and 10000
    have sizes 5000, 5000 and [n], with [n] being 3 or 0, the fetch issues
    exactly the three requests at these offsets and returns the three pages
    concatenated in order, [10000 + n] events in all; the empty third page
    is appended like any other. *)
Theorem fetchPayments_three_pages :
  forall (request : source) (p0 p1 p2 : list PaymentEvent) (n : Z) (fuel : nat),
    request 5000%Z 0%Z = Page p0 -> Z.of_nat (List.length p0) = 5000%Z ->
    request 5000%Z 5000%Z = Page p1 -> Z.of_nat (List.length p1) = 5000%Z ->
    request 5000%Z 10000%Z = Page p2 -> Z.of_nat (List.length p2) = n ->
    n = 3%Z \/ n = 0%Z ->
    3 <= fuel ->
    fetchPayments request fuel =
      ([0; 5000; 10000]%Z, Some (Ok (p0 ++ p1 ++ p2)%list)) /\
    Z.of_nat (List.length (p0 ++ p1 ++ p2)%list) = (10000 + n)%Z.
Proof.
  intros request p0 p1 p2 n fuel H0 L0 H1 L1 H2 L2 Hn Hfuel.
  split.
  - destruct fuel as [|[|[|fuel]]]; try lia.
    unfold fetchPayments. cbn [fetch_loop]. unfold limit.
    rewrite H0, L0. cbn. rewrite H1, L1. cbn. rewrite H2, L2.
    destruct Hn as [-> | ->]; cbn; now rewrite <- app_assoc.
  - rewrite !length_app. lia.
Qed.

(** C6. Failure: when the request at the [k]-th offset is rejected after
    [k] full pages, the fetch has requested each offset up to that one once
    and no other, and ends with the very error of that request and no
    events; settling the query with it records the error and leaves the
    cached dataset as it was. *)
Theorem fetchPayments_failure :
  forall (request : source) (k : nat) (e : exn) (fuel : nat),
    (forall j, j < k -> stops request j = false) ->
    request limit (offset_of k) = Rejected e ->
    k < fuel ->
    fetchPayments request fuel = (map offset_of (seq 0 (S k)), Some (Throw e)) /\
    forall st : AppState,
      data (query (dispatch st (Settled (Throw e)))) = data (query st) /\
      (isFetching (query st) = true ->
       error (query (dispatch st (Settled (Throw e)))) = Some e).
Proof.
  intros request k e fuel Hfull Hk Hfuel. split.
  - assert (Hs : stops request k = true) by (unfold stops; now rewrite Hk).
    rewrite (@fetchPayments_run request _ _ Hfull Hs Hfuel). now rewrite Hk.
  - intros st. unfold dispatch, with_query, settle, isFetching. simpl.
    destruct (inFlight (query st)); simpl; split; auto. discriminate.
Qed.

(** ** The formatter *)

Lemma rounded_hundredths n :
  (0 <= n)%Z ->
  let h := Dnum.rounded n 10 2 in
  (h * 10 ^ 8 - 5 * 10 ^ 7 <= n < h * 10 ^ 8 + 5 * 10 ^ 7)%Z /\ (0 <= h)%Z.
Proof.
  intros Hn. unfold Dnum.rounded. cbn [Nat.leb Nat.sub].
  change (Z.of_nat 8) with 8%Z. rewrite (Z.abs_eq n Hn).
  set (s := (10 ^ 8)%Z). assert (Hs : s = 100000000%Z) by reflexivity.
  change (10 ^ 7)%Z with 10000000%Z.
  pose proof (Z.div_mod (2 * n + s) (2 * s) ltac:(lia)) as Hd.
  pose proof (Z.mod_pos_bound (2 * n + s) (2 * s) ltac:(lia)) as Hm.
  assert (0 <= (2 * n + s) / (2 * s))%Z by (apply Z.div_pos; lia).
  cbv zeta. nia.
Qed.

Lemma append_assoc (s1 s2 s3 : string) : (s1 ++ s2) ++ s3 = s1 ++ (s2 ++ s3).
Proof. induction s1 as [|c s1 IH]; simpl; [reflexivity|now rewrite IH]. Qed.

Lemma two_digits m :
  (0 <= m < 100)%Z -> String.length (Dnum.pad_start 2 (Dnum.decimal m)) = 2.
Proof.
  intros Hm.
  assert (H : forallb (fun k => Nat.eqb (String.length
                 (Dnum.pad_start 2 (Dnum.decimal (Z.of_nat k)))) 2)
                (seq 0 100) = true) by (vm_compute; reflexivity).
  rewrite forallb_forall in H.
  specialize (H (Z.to_nat m)). rewrite Z2Nat.id in H by lia.
  apply Nat.eqb_eq, H, in_seq. lia.
Qed.

(** C3. Formatting: for a string that [BigInt] reads as a non-negative
    integer [n] of minor units, the output is the number of hundredths
    nearest to [n / 10^10] (computed on unbounded integers, so exact for
    every [n]), printed as its integer part, a point and exactly two
    fractional digits, followed by " JOY"; the three literal cases of the
    specification come out as stated. *)
Theorem formatJoy_exact :
  (forall (raw : string) (n : Z),
     BigInt raw = Ok n -> (0 <= n)%Z ->
     exists h : Z,
       (h * 10 ^ 8 - 5 * 10 ^ 7 <= n < h * 10 ^ 8 + 5 * 10 ^ 7)%Z /\
       formatJoy raw =
         Ok (Dnum.decimal (h / 100) ++ "." ++
             Dnum.pad_start 2 (Dnum.decimal (h mod 100)) ++ " JOY") /\
       String.length (Dnum.pad_start 2 (Dnum.decimal (h mod 100))) = 2) /\
  formatJoy "12345678901234" = Ok "1234.57 JOY" /\
  formatJoy "0" = Ok "0.00 JOY" /\
  formatJoy "99999999995" = Ok "10.00 JOY".
Proof.
  split; [|repeat split; reflexivity].
  intros raw n Hraw Hn.
  destruct (rounded_hundredths Hn) as [Hh Hpos].
  exists (Dnum.rounded n 10 2). split; [exact Hh|]. split.
  - unfold formatJoy. rewrite Hraw. simpl. unfold Dnum.format.
    assert (Hneg : (n <? 0)%Z = false) by (apply Z.ltb_ge; lia).
    rewrite Hneg. simpl andb. cbv iota.
    change (10 ^ Z.of_nat 2)%Z with 100%Z. cbn [append].
    now rewrite !append_assoc.
  - apply two_digits. apply Z.mod_pos_bound. lia.
Qed.

(** ** The component *)

Lemma dispatch_sorting st e :
  is_sort_interaction e = false -> sorting (dispatch st e) = sorting st.
Proof.
  intros He. unfold dispatch.
  destruct e; try discriminate; simpl;
    try (destruct (render st) as [| |d]; try reflexivity;
         try (destruct d; reflexivity)).
Qed.

Lemma run_sorting events : forall st,
  forallb (fun e => negb (is_sort_interaction e)) events = true ->
  sorting (run st events) = sorting st.
Proof.
  unfold run. induction events as [|e r IH]; simpl; intros st H; [reflexivity|].
  apply andb_prop in H. destruct H as [He Hr].
  rewrite (IH _ Hr). apply dispatch_sorting.
  now destruct (is_sort_interaction e).
Qed.

(** C7, as amended. Default sort: as long as no header has been clicked the
    sorting state is the single entry (totalAmount, descending) in both
    modes; it designates the Total Amount column of the grouped schema and
    no column of the flat schema. *)
Theorem default_sorting :
  forall (cached : option (list PaymentEvent)) (events : list event),
    forallb (fun e => negb (is_sort_interaction e)) events = true ->
    let st := run (mount cached) events in
    sorting st = [ mkSort "totalAmount" true ] /\
    sortedColumn st =
      if groupByChannel st
      then Some (mkColumn "Total Amount" "totalAmount", true)
      else None.
Proof.
  intros cached events H st.
  assert (Hs : sorting st = [ mkSort "totalAmount" true ]).
  { unfold st. now rewrite (run_sorting _ _ H). }
  split; [exact Hs|].
  unfold sortedColumn. rewrite Hs.
  destruct (groupByChannel st); reflexivity.
Qed.

Lemma dispatch_inFlight st e :
  inFlight (query st) <= 1 -> inFlight (query (dispatch st e)) <= 1.
Proof.
  intros H. unfold dispatch.
  destruct e; simpl;
    try (unfold render, isLoading, isFetching;
         destruct (inFlight (query st)) as [|[|n]] eqn:E; try lia;
         destruct (data (query st)); destruct (error (query st));
         simpl; rewrite ?E; simpl; lia).
  unfold settle. destruct (inFlight (query st)) as [|n] eqn:E; simpl; [lia|].
  destruct r; simpl; lia.
Qed.

Lemma run_inFlight events : forall st,
  inFlight (query st) <= 1 -> inFlight (query (run st events)) <= 1.
Proof.
  unfold run. induction events as [|e r IH]; simpl; intros st H; [exact H|].
  apply IH. now apply dispatch_inFlight.
Qed.

Lemma reload_while_fetching st :
  isFetching (query st) = true -> dispatch st ClickReload = st.
Proof.
  intros H. unfold dispatch, render. rewrite H.
  destruct (isLoading (query st)); [reflexivity|].
  destruct (error (query st)); reflexivity.
Qed.

(** C8. Reload: in every state the component reaches, from a cold start or
    from a restored cache, at most one fetch of the "payments" key is in
    flight; while one is in flight a click on the reload button changes
    nothing. *)
Theorem reload_single_flight :
  forall (cached : option (list PaymentEvent)) (events : list event),
    let st := run (mount cached) events in
    inFlight (query st) <= 1 /\
    (isFetching (query st) = true -> dispatch st ClickReload = st).
Proof.
  intros cached events st. split.
  - apply run_inFlight. destruct cached; simpl; lia.
  - apply reload_while_fetching.
Qed.

(** ** Events without a channel *)

Lemma reduce_null_channel l : forall acc p,
  In p l -> payeeChannel p = None -> exists e, reduce acc l = Throw e.
Proof.
  intros acc p HI Hp. destruct (reduce acc l) as [acc'|e] eqn:E.
  - apply reduce_channels in E. rewrite Forall_forall in E.
    exfalso. now apply (E p HI).
  - now exists e.
Qed.

(** An event whose channel reference is null makes the aggregation, and
    with it the render, throw. *)
Lemma null_channel_aborts (l : list PaymentEvent) (p : PaymentEvent) :
  In p l -> payeeChannel p = None ->
  exists e, groupedPayments (Some l) = Throw e /\
            forall st, data (query st) = Some l -> tableData st = Throw e.
Proof.
  intros HI Hp. destruct (reduce_null_channel l JsObject.empty p HI Hp) as [e He].
  exists e. unfold tableData. simpl. rewrite He. simpl. split; [reflexivity|].
  intros st ->. simpl. now rewrite He.
Qed.

(** C2, at a failing input: a single event whose [payeeChannel] is null.
    No "Unknown" bucket is produced: the aggregation throws a TypeError. *)
Example groupedPayments_null_channel :
  groupedPayments (Some [ mkPayment "1" "100" "" 7 None None ]) = Throw TypeError.
Proof. reflexivity. Qed.

Lemma all_named (l : list string) :
  forallb named l = true ->
  filter JsObject.is_index l = [] /\ filter named l = l.
Proof.
  unfold named. induction l as [|k r IH]; simpl; intros H; [auto|].
  apply andb_prop in H. destruct H as [Hk Hr]. destruct (IH Hr) as [-> ->].
  destruct (JsObject.is_index k); [discriminate|]. auto.
Qed.

(** When no channel id is an array index, the aggregates come in order of
    first occurrence of their channel id. *)
Theorem groupedPayments_first_seen_order :
  forall (payments : option (list PaymentEvent)) (aggs : list ChannelAggregate),
    groupedPayments payments = Ok aggs ->
    forallb named (channel_ids (events payments)) = true ->
    map channelId aggs = first_seen (channel_ids (events payments)).
Proof.
  intros payments aggs H Hnamed.
  destruct (groupedPayments_ok _ H) as (acc & [Hk Hb] & -> & _).
  assert (Hall : forallb named (JsObject.keys acc) = true).
  { rewrite forallb_forall in *. intros k HI. apply Hnamed.
    apply (proj1 (first_seen_In _ _)). now rewrite <- Hk. }
  assert (Hids : map channelId (JsObject.values acc) =
                 JsObject.keys (JsObject.entries acc)).
  { apply values_channelIds. intros k g HI. apply Hb.
    now apply (Permutation_in _ (entries_perm acc)). }
  destruct (entries_keys acc) as (idx & E & Hperm & _).
  destruct (all_named _ Hall) as [Hnone Hsame].
  rewrite Hids, E, <- Hk, Hsame.
  rewrite Hnone in Hperm. apply Permutation_sym, Permutation_nil in Hperm.
  now subst idx.
Qed.

(** The result of a fetch that ends on a short page: every page up to and
    including the short one, concatenated in order, after one request per
    offset. *)
Theorem fetchPayments_concatenates :
  forall (request : source) (n : nat) (p : list PaymentEvent) (fuel : nat),
    (forall j, j < n -> stops request j = false) ->
    request limit (offset_of n) = Page p ->
    (Z.of_nat (List.length p) < limit)%Z ->
    n < fuel ->
    fetchPayments request fuel =
      (map offset_of (seq 0 (S n)), Some (Ok (pages_from request 0 (S n)))).
Proof.
  intros request n p fuel Hfull Hp Hlen Hfuel.
  assert (Hs : stops request n = true).
  { unfold stops. rewrite Hp. now apply Z.ltb_lt. }
  rewrite (@fetchPayments_run request _ _ Hfull Hs Hfuel). now rewrite Hp.
Qed.

(** ** The statements at concrete inputs *)

Lemma groupedPayments_conservation_witness :
  groupedPayments (Some sample_payments) = Ok sample_aggregates /\
  exists amounts,
    Forall2 (fun p a => BigInt (amount p) = Ok a) sample_payments amounts /\
    sumZ (map totalAmount sample_aggregates) = sumZ amounts /\
    sumNat (map count sample_aggregates) = List.length sample_payments.
Proof.
  split; [reflexivity|].
  apply (@groupedPayments_conservation (Some sample_payments) sample_aggregates).
  reflexivity.
Defined.

Lemma groupedPayments_first_title_witness :
  exists p ch,
    first_payment "2" sample_payments = Some p /\
    payeeChannel p = Some ch /\
    id ch = "2" /\
    "two" = match title ch with
            | Some t => if String.eqb t "" then "Unknown" else t
            | None => "Unknown"
            end.
Proof.
  apply (@groupedPayments_first_title (Some sample_payments) sample_aggregates
           (mkAggregate "2" "two" 15 2)).
  - reflexivity.
  - simpl. auto.
Defined.

Lemma groupedPayments_order_witness :
  exists idx,
    map channelId sample_aggregates =
      (idx ++ filter named (first_seen (channel_ids sample_payments)))%list /\
    Permutation idx
      (filter JsObject.is_index (first_seen (channel_ids sample_payments))) /\
    StronglySorted index_le idx /\
    NoDup (map channelId sample_aggregates) /\
    (forall k, In k (map channelId sample_aggregates) <->
               In k (channel_ids sample_payments)).
Proof.
  apply (@groupedPayments_order (Some sample_payments) sample_aggregates).
  reflexivity.
Defined.

(** C5, as first stated, fails: two events paid to channels "2" and "1", in
    this order, yield the aggregate of "1" before that of "2". *)
Lemma groupedPayments_order_counterexample :
  let payments := [ sample_event "2" None "5"; sample_event "1" None "7" ] in
  groupedPayments (Some payments) =
    Ok [ mkAggregate "1" "Unknown" 7 1; mkAggregate "2" "Unknown" 5 1 ] /\
  first_seen (channel_ids payments) = [ "2"; "1" ] /\
  ~ (forall aggs, groupedPayments (Some payments) = Ok aggs ->
                  map channelId aggs = first_seen (channel_ids payments)).
Proof.
  split; [reflexivity|]. split; [reflexivity|].
  intros H. specialize (H _ eq_refl). discriminate H.
Qed.

Lemma fetchPayments_three_pages_witness :
  fetchPayments three_page_source 3 =
    ([0; 5000; 10000]%Z, Some (Ok (full_page ++ full_page ++ short_page)%list)) /\
  Z.of_nat (List.length (full_page ++ full_page ++ short_page)%list) = (10000 + 3)%Z.
Proof.
  apply (@fetchPayments_three_pages three_page_source
           full_page full_page short_page 3%Z 3).
  - reflexivity.
  - vm_compute. reflexivity.
  - reflexivity.
  - vm_compute. reflexivity.
  - reflexivity.
  - reflexivity.
  - left. reflexivity.
  - lia.
Defined.

Lemma fetchPayments_failure_witness :
  fetchPayments failing_source 2 =
    ([0; 5000]%Z, Some (Throw (RequestError "Failed to fetch"))) /\
  forall st : AppState,
    data (query (dispatch st (Settled (Throw (RequestError "Failed to fetch"))))) =
      data (query st) /\
    (isFetching (query st) = true ->
     error (query (dispatch st (Settled (Throw (RequestError "Failed to fetch"))))) =
       Some (RequestError "Failed to fetch")).
Proof.
  apply (@fetchPayments_failure failing_source 1 (RequestError "Failed to fetch") 2).
  - intros j Hj. assert (j = 0) as -> by lia. vm_compute. reflexivity.
  - reflexivity.
  - lia.
Defined.

(** C9, as first stated, fails: against a source that rejects every request
    the loop ends at once, though no page shorter than 5000 records is ever
    returned. *)
Lemma fetchPayments_termination_counterexample :
  fetchPayments rejecting_source 1 =
    ([0%Z], Some (Throw (RequestError "Failed to fetch"))) /\
  ~ (terminates rejecting_source <->
     exists k p, rejecting_source limit (offset_of k) = Page p /\
                 (Z.of_nat (List.length p) < limit)%Z).
Proof.
  split; [reflexivity|].
  intros [H _]. destruct H as (k & p & H & _).
  - exists 1. simpl. discriminate.
  - discriminate H.
Qed.

Lemma fetchPayments_termination_witness :
  ~ terminates endless_source /\
  (terminates three_page_source <-> exists k, stops three_page_source k = true).
Proof.
  split.
  - apply (proj2 (proj2 (fetchPayments_termination endless_source))).
    intros offset. exists full_page. split; [reflexivity|vm_compute; reflexivity].
  - apply (proj1 (fetchPayments_termination three_page_source)).
Defined.

Lemma formatJoy_exact_witness :
  exists h : Z,
    (h * 10 ^ 8 - 5 * 10 ^ 7 <= 2 ^ 64 < h * 10 ^ 8 + 5 * 10 ^ 7)%Z /\
    formatJoy "18446744073709551616" =
      Ok (Dnum.decimal (h / 100) ++ "." ++
          Dnum.pad_start 2 (Dnum.decimal (h mod 100)) ++ " JOY") /\
    String.length (Dnum.pad_start 2 (Dnum.decimal (h mod 100))) = 2.
Proof.
  apply (proj1 formatJoy_exact "18446744073709551616" (2 ^ 64)%Z).
  - reflexivity.
  - lia.
Defined.

(** C7, as first stated, fails: after one click on the group button (and
    no click on a header) the table is in flat mode and its sorting state
    designates no column, let alone Amount. *)
Lemma default_sorting_counterexample :
  let st := run (mount (Some sample_payments)) [ ClickToggle ] in
  forallb (fun e => negb (is_sort_interaction e)) [ ClickToggle ] = true /\
  groupByChannel st = false /\
  sorting st = [ mkSort "totalAmount" true ] /\
  sortedColumn st <> Some (mkColumn "Amount" "amount", true).
Proof. repeat split; try reflexivity. discriminate. Qed.

Lemma default_sorting_witness :
  let st := run (mount (Some sample_payments)) [ ClickToggle; TypeFilter "abc" ] in
  sorting st = [ mkSort "totalAmount" true ] /\
  sortedColumn st =
    if groupByChannel st
    then Some (mkColumn "Total Amount" "totalAmount", true)
    else None.
Proof.
  apply (@default_sorting (Some sample_payments) [ ClickToggle; TypeFilter "abc" ]).
  reflexivity.
Defined.

(** The explorer view over a restored cache: the reload button is on
    display and enabled, a first click starts the one fetch, the button is
    then disabled, and a second and a third click start nothing. *)
Lemma reload_single_flight_witness :
  let idle := mount (Some sample_payments) in
  let busy := run idle [ ClickReload ] in
  let st := run idle [ ClickReload; ClickReload ] in
  render idle = ExplorerView false /\
  inFlight (query busy) = 1 /\
  render busy = ExplorerView true /\
  isFetching (query st) = true /\
  inFlight (query st) <= 1 /\
  dispatch st ClickReload = st.
Proof.
  destruct (reload_single_flight (Some sample_payments)
              [ ClickReload; ClickReload ]) as [H1 H2].
  split; [reflexivity|]. split; [reflexivity|]. split; [reflexivity|].
  split; [reflexivity|]. split; [exact H1|]. apply H2. reflexivity.
Defined.

Lemma groupedPayments_first_seen_order_witness :
  let payments := [ sample_event "b" None "5"; sample_event "a" None "7";
                    sample_event "b" None "1" ] in
  map channelId [ mkAggregate "b" "Unknown" 6 2; mkAggregate "a" "Unknown" 7 1 ] =
    first_seen (channel_ids payments).
Proof.
  apply (@groupedPayments_first_seen_order
           (Some [ sample_event "b" None "5"; sample_event "a" None "7";
                   sample_event "b" None "1" ])
           [ mkAggregate "b" "Unknown" 6 2; mkAggregate "a" "Unknown" 7 1 ]).
  - reflexivity.
  - reflexivity.
Defined.

Lemma null_channel_aborts_witness :
  exists e,
    groupedPayments
      (Some [ sample_event "1" None "5"; mkPayment "2" "100" "" 7 None None ]) =
      Throw e /\
    forall st,
      data (query st) =
        Some [ sample_event "1" None "5"; mkPayment "2" "100" "" 7 None None ] ->
      tableData st = Throw e.
Proof.
  apply (@null_channel_aborts
           [ sample_event "1" None "5"; mkPayment "2" "100" "" 7 None None ]
           (mkPayment "2" "100" "" 7 None None)).
  - simpl. auto.
  - reflexivity.
Defined.

Lemma fetchPayments_concatenates_witness :
  fetchPayments three_page_source 4 =
    (map offset_of (seq 0 3), Some (Ok (pages_from three_page_source 0 3))).
Proof.
  apply (@fetchPayments_concatenates three_page_source 2 short_page 4).
  - intros j Hj.
    assert (j = 0 \/ j = 1) as [-> | ->] by lia; vm_compute; reflexivity.
  - reflexivity.
  - vm_compute. reflexivity.
  - lia.
Defined.

(** ** The aggregator, channel by channel *)

Lemma update_In_key (V : Type) (o : JsObject.t V) k f k' v' :
  NoDup (JsObject.keys o) ->
  In (k', v') (JsObject.update o k f) ->
  (k' <> k /\ In (k', v') o) \/
  (k' = k /\ exists v, In (k, v) o /\ v' = f v).
Proof.
  unfold JsObject.keys.
  induction o as [|[k0 v0] r IH]; simpl; intros Hnd HI; [tauto|].
  inversion Hnd as [|? ? Hnotin Hnd']; subst.
  destruct (String.eqb_spec k k0) as [->|Hne].
  - destruct HI as [[= <- <-]|HI].
    + right. split; [reflexivity|]. exists v0. auto.
    + left. split; [|now right]. intros ->. apply Hnotin.
      apply in_map_iff. now exists (k0, v').
  - destruct HI as [[= <- <-]|HI].
    + left. split; [congruence|now left].
    + destruct (IH Hnd' HI) as [[Hk Hin]|(Hk & v & Hin & E)].
      * left. auto.
      * right. split; [exact Hk|]. exists v. auto.
Qed.

Lemma paid_to_snoc k seen p :
  paid_to k (seen ++ [p]) =
  (paid_to k seen ++ if has_channel k p then [p] else [])%list.
Proof. unfold paid_to. rewrite filter_app. reflexivity. Qed.

Lemma paid_to_none k l : ~ In k (channel_ids l) -> paid_to k l = [].
Proof.
  unfold paid_to, has_channel.
  induction l as [|p r IH]; simpl; [reflexivity|].
  destruct (payeeChannel p) as [ch|]; simpl.
  - intros H. destruct (String.eqb_spec (id ch) k) as [E|_].
    + exfalso. apply H. now left.
    + apply IH. intros HI. apply H. now right.
  - exact IH.
Qed.

Lemma tallied_empty : tallied [] JsObject.empty.
Proof. intros k g []. Qed.

Lemma tallied_step seen acc p acc' :
  reduced seen acc -> tallied seen acc ->
  reducer acc p = Ok acc' -> tallied (seen ++ [p]) acc'.
Proof.
  intros Hred Htal H.
  pose proof (@reduced_step _ _ _ _ Hred H) as [Hk' _].
  destruct Hred as [Hk _].
  destruct (reducer_ok _ _ H) as (ch & a & Hch & _ & Ha & ->).
  assert (Hval : amount_value p = a) by (unfold amount_value; now rewrite Ha).
  assert (Hnd : NoDup (JsObject.keys (ensure acc (id ch) p))).
  { rewrite keys_update in Hk'. rewrite Hk'. apply first_seen_NoDup. }
  assert (Hhere : has_channel (id ch) p = true).
  { unfold has_channel. rewrite Hch. apply String.eqb_refl. }
  intros k g' HI. rewrite paid_to_snoc.
  apply (@update_In_key _ _ _ _ _ _ Hnd) in HI.
  destruct HI as [[Hne HI]|(-> & g & HI & ->)].
  - assert (Hoff : has_channel k p = false).
    { unfold has_channel. rewrite Hch. apply String.eqb_neq. congruence. }
    rewrite Hoff, app_nil_r. apply Htal.
    unfold ensure in HI. destruct (JsObject.get acc (id ch)); [exact HI|].
    unfold JsObject.add in HI. apply in_app_or in HI.
    destruct HI as [HI|[[= E _]|[]]]; [exact HI|congruence].
  - rewrite Hhere, map_app, sumZ_app, length_app. simpl. rewrite Hval.
    unfold ensure in HI.
    destruct (JsObject.get acc (id ch)) as [g0|] eqn:Hg.
    + destruct (Htal _ _ HI) as [-> ->]. split; lia.
    + apply get_none_iff in Hg.
      unfold JsObject.add in HI. apply in_app_or in HI.
      destruct HI as [HI|[[= <-]|[]]].
      * exfalso. apply Hg. unfold JsObject.keys. apply in_map_iff.
        now exists (id ch, g).
      * rewrite Hk, first_seen_In in Hg. rewrite (paid_to_none _ _ Hg).
        simpl. split; lia.
Qed.

Lemma tallied_reduce l : forall seen acc acc',
  reduced seen acc -> tallied seen acc ->
  reduce acc l = Ok acc' -> tallied (seen ++ l) acc'.
Proof.
  induction l as [|p r IH]; simpl; intros seen acc acc' Hred Htal H.
  - injection H as <-. now rewrite app_nil_r.
  - destruct (reducer acc p) as [acc1|e] eqn:E; simpl in H; [|discriminate].
    replace (seen ++ p :: r)%list with ((seen ++ [p]) ++ r)%list
      by now rewrite <- app_assoc.
    eapply IH; [| |exact H].
    + eapply reduced_step; eauto.
    + eapply tallied_step; eauto.
Qed.

Lemma groupedPayments_tallied payments aggs :
  groupedPayments payments = Ok aggs ->
  exists acc,
    reduced (events payments) acc /\
    tallied (events payments) acc /\
    aggs = JsObject.values acc.
Proof.
  destruct payments as [l|]; simpl.
  - destruct (reduce JsObject.empty l) as [acc|e] eqn:E; simpl; [|discriminate].
    intros [= <-]. exists acc. split; [|split; [|reflexivity]].
    + eapply (reduced_reduce l (seen := [])); [apply reduced_empty|exact E].
    + eapply (tallied_reduce l (seen := []));
        [apply reduced_empty|apply tallied_empty|exact E].
  - intros [= <-]. exists JsObject.empty.
    split; [apply reduced_empty|split; [apply tallied_empty|reflexivity]].
Qed.

(** Every aggregate holds the sum of the amounts, and the number, of the
    events paid to its channel, and stands for one event at least. *)
Theorem groupedPayments_per_channel :
  forall (payments : option (list PaymentEvent)) (aggs : list ChannelAggregate)
         (g : ChannelAggregate),
    groupedPayments payments = Ok aggs ->
    In g aggs ->
    totalAmount g =
      sumZ (map amount_value (paid_to (channelId g) (events payments))) /\
    count g = List.length (paid_to (channelId g) (events payments)) /\
    1 <= count g.
Proof.
  intros payments aggs g H HI.
  destruct (groupedPayments_tallied _ H) as (acc & [_ Hb] & Htal & ->).
  apply (Permutation_in _ (values_perm acc)) in HI.
  apply in_map_iff in HI. destruct HI as ([k g'] & E & HI). simpl in E. subst g'.
  destruct (Hb _ _ HI) as (Hk & p & Hp & _). subst k.
  destruct (Htal _ _ HI) as [Ht Hc]. split; [exact Ht|]. split; [exact Hc|].
  rewrite Hc. unfold first_payment in Hp. apply find_some in Hp.
  assert (Hin : In p (paid_to (channelId g) (events payments))).
  { unfold paid_to. now apply filter_In. }
  destruct (paid_to (channelId g) (events payments)); [destruct Hin|simpl; lia].
Qed.

(** ** Which collections the aggregator accepts *)

Lemma reducer_accepts acc p :
  acceptable p = true -> exists acc', reducer acc p = Ok acc'.
Proof.
  unfold acceptable, reducer, payee_id, BigInt.
  destruct (payeeChannel p) as [ch|]; [|discriminate]. simpl.
  destruct (JsObject.inherited (id ch)); [discriminate|]. simpl.
  destruct (JsBigInt.parse (amount p)); [|discriminate]. simpl.
  intros _. eexists. reflexivity.
Qed.

Lemma reducer_rejects acc p :
  acceptable p = false ->
  exists e, reducer acc p = Throw e /\ (e = TypeError \/ e = SyntaxError).
Proof.
  unfold acceptable, reducer, payee_id, BigInt.
  destruct (payeeChannel p) as [ch|]; simpl; [|intros _; eauto].
  destruct (JsObject.inherited (id ch)); simpl;
    destruct (JsBigInt.parse (amount p)); simpl; intros H;
    try discriminate; eauto.
Qed.

Lemma reduce_accepts l : forall acc,
  forallb acceptable l = true -> exists acc', reduce acc l = Ok acc'.
Proof.
  induction l as [|p r IH]; simpl; intros acc H; [eauto|].
  apply andb_prop in H. destruct H as [Hp Hr].
  destruct (reducer_accepts acc p Hp) as [acc1 ->]. simpl. now apply IH.
Qed.

Lemma reduce_rejects l : forall acc,
  forallb acceptable l = false ->
  exists e, reduce acc l = Throw e /\ (e = TypeError \/ e = SyntaxError).
Proof.
  induction l as [|p r IH]; simpl; intros acc H; [discriminate|].
  destruct (acceptable p) eqn:Hp; simpl in H.
  - destruct (reducer_accepts acc p Hp) as [acc1 ->]. simpl. now apply IH.
  - destruct (reducer_rejects acc p Hp) as (e & -> & He). simpl. eauto.
Qed.

(** The aggregation succeeds exactly on the collections whose events all
    carry a channel with an id that is no property name of
    [Object.prototype] and an amount that [BigInt] reads; on any other
    collection it throws a TypeError or a SyntaxError. *)
Theorem groupedPayments_accepts :
  forall l : list PaymentEvent,
    ((exists aggs, groupedPayments (Some l) = Ok aggs) <->
     forallb acceptable l = true) /\
    (forall e, groupedPayments (Some l) = Throw e ->
               e = TypeError \/ e = SyntaxError).
Proof.
  intros l. simpl. destruct (forallb acceptable l) eqn:Hl.
  - destruct (reduce_accepts l JsObject.empty Hl) as [acc ->]. simpl.
    split; [split; eauto|discriminate].
  - destruct (reduce_rejects l JsObject.empty Hl) as (e & -> & He). simpl.
    split.
    + split; [intros [aggs H]; discriminate|discriminate].
    + now intros e' [= <-].
Qed.

(** ** Reordering the events *)

Lemma paid_to_perm k l1 l2 :
  Permutation l1 l2 -> Permutation (paid_to k l1) (paid_to k l2).
Proof.
  unfold paid_to. induction 1 as [|x l l' _ IH|x y l|l l' l'' _ IH1 _ IH2]; simpl.
  - constructor.
  - destruct (has_channel k x); [now constructor|exact IH].
  - destruct (has_channel k x), (has_channel k y);
      try apply Permutation_refl. apply perm_swap.
  - eapply perm_trans; eauto.
Qed.

Lemma channel_ids_In k l :
  In k (channel_ids l) <-> exists p, In p l /\ has_channel k p = true.
Proof.
  unfold has_channel. induction l as [|p r IH]; simpl.
  - split; [tauto|intros (p & [] & _)].
  - destruct (payeeChannel p) as [ch|] eqn:Hch; simpl; rewrite IH; split.
    + intros [E|(q & Hq & Hk)].
      * exists p. rewrite Hch. split; [now left|]. now apply String.eqb_eq.
      * exists q. auto.
    + intros (q & [->|Hq] & Hk).
      * rewrite Hch in Hk. left. now apply String.eqb_eq.
      * right. exists q. auto.
    + intros (q & Hq & Hk). exists q. auto.
    + intros (q & [->|Hq] & Hk).
      * rewrite Hch in Hk. discriminate.
      * exists q. auto.
Qed.

Lemma channel_ids_perm k l1 l2 :
  Permutation l1 l2 -> In k (channel_ids l1) -> In k (channel_ids l2).
Proof.
  intros HP. rewrite !channel_ids_In. intros (p & Hp & Hk).
  exists p. split; [now apply (Permutation_in _ HP)|exact Hk].
Qed.

Lemma keys_In (V : Type) (o : JsObject.t V) k :
  In k (JsObject.keys o) <-> exists v, In (k, v) o.
Proof.
  unfold JsObject.keys. rewrite in_map_iff. split.
  - intros ([k' v] & E & HI). simpl in E. subst k'. now exists v.
  - intros [v HI]. now exists (k, v).
Qed.

Lemma values_In (V : Type) (o : JsObject.t V) v :
  In v (JsObject.values o) <-> exists k, In (k, v) o.
Proof.
  split.
  - intros HI. apply (Permutation_in _ (values_perm o)) in HI.
    apply in_map_iff in HI. destruct HI as ([k v'] & E & HI).
    simpl in E. subst v'. now exists k.
  - intros [k HI]. apply (Permutation_in _ (Permutation_sym (values_perm o))).
    apply in_map_iff. now exists (k, v).
Qed.

Lemma forallb_perm (A : Type) (f : A -> bool) l1 l2 :
  Permutation l1 l2 -> forallb f l1 = true -> forallb f l2 = true.
Proof.
  intros HP. rewrite !forallb_forall. intros H x Hx.
  apply H. now apply (Permutation_in _ (Permutation_sym HP)).
Qed.

(** Reordering the events changes neither the number of aggregates nor,
    for any channel, the total and the count of its aggregate. *)
Theorem groupedPayments_permutation :
  forall (l1 l2 : list PaymentEvent) (aggs1 : list ChannelAggregate),
    Permutation l1 l2 ->
    groupedPayments (Some l1) = Ok aggs1 ->
    exists aggs2,
      groupedPayments (Some l2) = Ok aggs2 /\
      List.length aggs2 = List.length aggs1 /\
      forall g1, In g1 aggs1 ->
        exists g2, In g2 aggs2 /\
                   channelId g2 = channelId g1 /\
                   totalAmount g2 = totalAmount g1 /\
                   count g2 = count g1.
Proof.
  intros l1 l2 aggs1 HP H1.
  assert (Hacc : forallb acceptable l2 = true).
  { apply (forallb_perm _ HP).
    destruct (forallb acceptable l1) eqn:E; [reflexivity|].
    destruct (reduce_rejects l1 JsObject.empty E) as (e & He & _).
    simpl in H1. rewrite He in H1. discriminate. }
  destruct (reduce_accepts l2 JsObject.empty Hacc) as [acc2 Hacc2].
  assert (H2 : groupedPayments (Some l2) = Ok (JsObject.values acc2)).
  { simpl. now rewrite Hacc2. }
  exists (JsObject.values acc2). split; [exact H2|].
  destruct (groupedPayments_tallied _ H1) as (acc1 & [Hk1 Hb1] & Ht1 & ->).
  destruct (groupedPayments_tallied _ H2) as (acc2' & [Hk2 Hb2] & Ht2 & E2).
  rewrite E2. simpl in *. split.
  - rewrite (Permutation_length (values_perm acc2')).
    rewrite (Permutation_length (values_perm acc1)).
    rewrite !length_map.
    rewrite <- (length_map fst acc2'), <- (length_map fst acc1).
    fold (JsObject.keys acc2'). fold (JsObject.keys acc1). rewrite Hk1, Hk2.
    apply Permutation_length, NoDup_Permutation; try apply first_seen_NoDup.
    intros k. rewrite !first_seen_In. split; apply channel_ids_perm;
      [now apply Permutation_sym|exact HP].
  - intros g1 HI. apply values_In in HI. destruct HI as [k HI].
    destruct (Hb1 _ _ HI) as [Hid _]. destruct (Ht1 _ _ HI) as [Ht Hc].
    assert (Hk : In k (JsObject.keys acc2')).
    { rewrite Hk2, first_seen_In. apply (channel_ids_perm k HP).
      rewrite <- first_seen_In, <- Hk1. apply keys_In. now exists g1. }
    apply keys_In in Hk. destruct Hk as [g2 HI2].
    destruct (Hb2 _ _ HI2) as [Hid2 _]. destruct (Ht2 _ _ HI2) as [Ht' Hc'].
    exists g2. split; [apply values_In; now exists k|].
    split; [congruence|]. rewrite Ht, Hc, Ht', Hc'.
    pose proof (paid_to_perm k HP) as HPk. split.
    + symmetry. apply sumZ_perm, Permutation_map, HPk.
    + symmetry. apply Permutation_length, HPk.
Qed.

(** ** More on the pagination fetcher *)

Lemma limit_pos : (0 < limit)%Z.
Proof. reflexivity. Qed.

Lemma fetch_loop_running_log request : forall fuel acc k,
  (forall j, j < fuel -> stops request (k + j) = false) ->
  fst (fetch_loop request fuel acc (offset_of k)) = map offset_of (seq k fuel).
Proof.
  induction fuel as [|fuel IH]; intros acc k H; [reflexivity|].
  cbn [fetch_loop seq map].
  pose proof (H 0 ltac:(lia)) as H0. rewrite Nat.add_0_r in H0.
  unfold stops in H0.
  destruct (request limit (offset_of k)) as [p|e]; [|discriminate].
  rewrite H0, offset_of_succ.
  specialize (IH (acc ++ p)%list (S k)).
  destruct (fetch_loop request fuel (acc ++ p) (offset_of (S k))) as [tr o].
  cbn [fst] in *. f_equal. apply IH. intros j Hj.
  replace (S k + j) with (k + S j) by lia. apply H. lia.
Qed.

(** Whatever the source answers, the requests go to the offsets 0, 5000,
    10000, ... one after the other, none skipped and none repeated; once
    the loop has ended, the last request is the first one that was rejected
    or came back with fewer than 5000 records. *)
Theorem fetchPayments_requests :
  forall (request : source) (fuel : nat),
    exists m,
      m <= fuel /\
      fst (fetchPayments request fuel) = map offset_of (seq 0 m) /\
      (forall j, S j < m -> stops request j = false) /\
      (snd (fetchPayments request fuel) = None -> m = fuel) /\
      (snd (fetchPayments request fuel) <> None ->
       exists n, m = S n /\ stops request n = true).
Proof.
  intros request fuel.
  destruct (first_stop request fuel) as [Hr|(n & Hn & Hs & Hb)].
  - exists fuel. split; [lia|]. split.
    + apply (@fetch_loop_running_log request fuel [] 0). exact Hr.
    + split; [intros j Hj; apply Hr; lia|]. split; [reflexivity|].
      intros H. now rewrite (@fetchPayments_running request fuel Hr) in H.
  - exists (S n). rewrite (@fetchPayments_run request _ _ Hb Hs Hn).
    cbn [fst snd]. split; [lia|]. split; [reflexivity|].
    split; [intros j Hj; apply Hb; lia|]. split; [discriminate|].
    intros _. now exists n.
Qed.

(** Once a run has ended, running the loop for longer changes nothing:
    neither the requests issued nor the outcome. *)
Theorem fetchPayments_fuel :
  forall (request : source) (fuel fuel' : nat) (r : result (list PaymentEvent)),
    snd (fetchPayments request fuel) = Some r ->
    fuel <= fuel' ->
    fetchPayments request fuel' = fetchPayments request fuel.
Proof.
  intros request fuel fuel' r H Hle.
  destruct (first_stop request fuel) as [Hr|(n & Hn & Hs & Hb)].
  - rewrite (@fetchPayments_running request fuel Hr) in H. discriminate.
  - rewrite (@fetchPayments_run request _ fuel Hb Hs Hn).
    apply fetchPayments_run; auto. lia.
Qed.

Lemma pages_from_length request (L : nat) : forall m k,
  (forall j, k <= j < k + m -> List.length (page_at request j) = L) ->
  List.length (pages_from request k m) = m * L.
Proof.
  induction m as [|m IH]; intros k H; simpl; [reflexivity|].
  rewrite length_app, (H k) by lia. rewrite (IH (S k)); [lia|].
  intros j Hj. apply H. lia.
Qed.

(** For a source that never returns more records than asked for, a fetch
    that returns [l] has issued exactly [|l| / 5000 + 1] requests. *)
Theorem fetchPayments_request_count :
  forall (request : source) (fuel : nat) (log : list Z) (l : list PaymentEvent),
    (forall k p, request limit (offset_of k) = Page p ->
                 (Z.of_nat (List.length p) <= limit)%Z) ->
    fetchPayments request fuel = (log, Some (Ok l)) ->
    Z.of_nat (List.length log) = (Z.of_nat (List.length l) / limit + 1)%Z.
Proof.
  intros request fuel log l Hmax H.
  pose proof limit_pos as Hpos.
  destruct (first_stop request fuel) as [Hr|(n & Hn & Hs & Hb)].
  - pose proof (@fetchPayments_running request fuel Hr) as Hnone.
    rewrite H in Hnone. discriminate.
  - rewrite (@fetchPayments_run request _ _ Hb Hs Hn) in H.
    unfold stops in Hs.
    destruct (request limit (offset_of n)) as [p|e] eqn:Hp; [|discriminate].
    assert (E1 : log = map offset_of (seq 0 (S n))) by congruence.
    assert (E2 : l = pages_from request 0 (n + 1)).
    { replace (n + 1) with (S n) by lia. congruence. }
    clear H. subst log l. apply Z.ltb_lt in Hs.
    rewrite length_map, length_seq.
    assert (Hlen : List.length (pages_from request 0 (n + 1)) =
                   n * Z.to_nat limit + List.length p).
    { clear - Hb Hmax Hp Hpos.
      assert (Hsplit : forall m k, pages_from request k (m + 1) =
                (pages_from request k m ++ page_at request (k + m))%list).
      { induction m as [|m IH]; intros k; simpl.
        - now rewrite Nat.add_0_r, app_nil_r.
        - rewrite IH, <- app_assoc. do 3 f_equal. lia. }
      rewrite Hsplit, length_app. cbn [Nat.add]. unfold page_at at 1. rewrite Hp.
      f_equal. apply pages_from_length. intros j [_ Hj]. simpl in Hj.
      specialize (Hb j Hj). unfold stops in Hb. unfold page_at.
      destruct (request limit (offset_of j)) as [q|] eqn:Hq; [|discriminate].
      apply Z.ltb_ge in Hb. specialize (Hmax _ _ Hq). lia. }
    rewrite Hlen, Nat2Z.inj_add, Nat2Z.inj_mul, Z2Nat.id by lia.
    rewrite Z.div_add_l by lia. rewrite Z.div_small by lia. lia.
Qed.

Lemma firstn_plus (A : Type) (a b : nat) : forall l : list A,
  firstn (a + b) l = (firstn a l ++ firstn b (skipn a l))%list.
Proof.
  induction a as [|a IH]; intros l; simpl; [reflexivity|].
  destruct l as [|x r]; simpl.
  - now rewrite firstn_nil.
  - now rewrite IH.
Qed.

Lemma offset_of_nat k : Z.to_nat (offset_of k) = k * Z.to_nat limit.
Proof.
  unfold offset_of. pose proof limit_pos.
  rewrite Z2Nat.inj_mul, Nat2Z.id by lia. reflexivity.
Qed.

Lemma slice_pages request db :
  (forall k, request limit (offset_of k) = Page (slice db limit (offset_of k))) ->
  forall m k,
    pages_from request k m =
    firstn (m * Z.to_nat limit) (skipn (k * Z.to_nat limit) db).
Proof.
  intros Hreq. induction m as [|m IH]; intros k; [reflexivity|].
  cbn [pages_from]. unfold page_at. rewrite Hreq, IH.
  unfold slice. rewrite offset_of_nat.
  replace (S m * Z.to_nat limit) with (Z.to_nat limit + m * Z.to_nat limit) by lia.
  rewrite firstn_plus, skipn_skipn. reflexivity.
Qed.

(** Against an endpoint that serves a fixed collection by limit and offset,
    the fetch returns the whole collection, in order, nothing lost and
    nothing twice, after [n + 1] requests where [n] is the number of full
    pages the collection holds (so one request, for an empty page, more
    than there are pages when its size is a multiple of 5000). *)
Theorem fetchPayments_complete :
  forall (request : source) (db : list PaymentEvent) (n fuel : nat),
    (forall k, request limit (offset_of k) = Page (slice db limit (offset_of k))) ->
    (Z.of_nat n * limit <= Z.of_nat (List.length db) < (Z.of_nat n + 1) * limit)%Z ->
    n < fuel ->
    fetchPayments request fuel = (map offset_of (seq 0 (S n)), Some (Ok db)).
Proof.
  intros request db n fuel Hreq Hn Hfuel.
  pose proof limit_pos as Hpos.
  set (L := Z.to_nat limit) in *.
  assert (HL : Z.of_nat L = limit) by (unfold L; apply Z2Nat.id; lia).
  assert (Hlen : forall k, List.length (slice db limit (offset_of k)) =
                           Nat.min L (List.length db - k * L)).
  { intros k. unfold slice. rewrite offset_of_nat, length_firstn, length_skipn.
    reflexivity. }
  assert (Hfull : forall j, j < n -> stops request j = false).
  { intros j Hj. unfold stops. rewrite Hreq, Hlen. apply Z.ltb_ge. nia. }
  assert (Hstop : stops request n = true).
  { unfold stops. rewrite Hreq, Hlen. apply Z.ltb_lt. nia. }
  rewrite (@fetchPayments_run request _ _ Hfull Hstop Hfuel).
  rewrite Hreq, (slice_pages request db Hreq). simpl skipn.
  rewrite firstn_all2; [reflexivity|]. fold L. nia.
Qed.

(** ** More on the component *)

Lemma first_seen_length l : List.length (first_seen l) <= List.length l.
Proof.
  induction l as [|k r IH]; simpl; [lia|].
  pose proof (filter_length_le (fun k' => negb (String.eqb k' k)) (first_seen r)).
  lia.
Qed.

Lemma channel_ids_length l : List.length (channel_ids l) <= List.length l.
Proof.
  induction l as [|p r IH]; simpl; [lia|].
  destruct (payeeChannel p); simpl; lia.
Qed.

Lemma tableData_ok st rows :
  tableData st = Ok rows ->
  exists aggs,
    groupedPayments (data (query st)) = Ok aggs /\
    rows = if groupByChannel st then map GroupedRow aggs
           else map FlatRow (events (data (query st))).
Proof.
  unfold tableData.
  destruct (groupedPayments (data (query st))) as [aggs|e]; simpl; [|discriminate].
  intros [= <-]. exists aggs. split; reflexivity.
Qed.

(** In flat mode the table holds one row per event, in grouped mode one row
    per distinct channel id, which is never more. *)
Theorem tableData_rows :
  forall (st : AppState) (rows : list Row),
    tableData st = Ok rows ->
    let payments := events (data (query st)) in
    List.length rows =
      (if groupByChannel st
       then List.length (first_seen (channel_ids payments))
       else List.length payments) /\
    List.length (first_seen (channel_ids payments)) <= List.length payments.
Proof.
  intros st rows H payments.
  destruct (tableData_ok _ H) as (aggs & Hg & ->).
  split.
  - destruct (groupByChannel st); rewrite length_map; [|reflexivity].
    destruct (groupedPayments_ok _ Hg) as (acc & [Hk _] & -> & _).
    rewrite (Permutation_length (values_perm acc)), length_map.
    rewrite <- (length_map fst acc). fold (JsObject.keys acc). now rewrite Hk.
  - pose proof (first_seen_length (channel_ids payments)).
    pose proof (channel_ids_length payments). lia.
Qed.

(** Once the aggregation of a render has succeeded, no cell renderer of the
    component throws, in either mode: every channel link can be built and
    every amount can be formatted. *)
Theorem renderedCells_ok :
  forall (st : AppState) (rows : list Row) (r : Row) (c : result Cell),
    tableData st = Ok rows ->
    In r rows ->
    In c (renderedCells r) ->
    exists cell, c = Ok cell.
Proof.
  intros st rows r c H Hr Hc.
  destruct (tableData_ok _ H) as (aggs & Hg & ->).
  destruct (groupByChannel st).
  - apply in_map_iff in Hr. destruct Hr as (g & <- & _).
    destruct Hc as [<-|[<-|[]]]; eexists; reflexivity.
  - apply in_map_iff in Hr. destruct Hr as (p & <- & Hp).
    assert (Hacc : acceptable p = true).
    { destruct (data (query st)) as [l|]; [|destruct Hp]. simpl in Hp, Hg.
      destruct (forallb acceptable l) eqn:E.
      - rewrite forallb_forall in E. now apply E.
      - destruct (reduce_rejects l JsObject.empty E) as (e & He & _).
        rewrite He in Hg. discriminate. }
    unfold acceptable in Hacc.
    destruct (payeeChannel p) as [ch|] eqn:Hch; [|discriminate].
    apply andb_prop in Hacc. destruct Hacc as [_ Hparse].
    destruct Hc as [<-|[<-|[]]].
    + unfold flatTitleCell. rewrite Hch. eexists. reflexivity.
    + unfold flatAmountCell, formatJoyOf, BigIntOf, BigInt.
      destruct (JsBigInt.parse (amount p)); [|discriminate].
      eexists. reflexivity.
Qed.

Lemma dispatch_view_event st e :
  is_view_event e = true ->
  query (dispatch st e) = query st /\
  ((forall d, render st <> ExplorerView d) -> dispatch st e = st).
Proof.
  intros He. unfold dispatch.
  destruct e; try discriminate; destruct (render st) as [| |d];
    simpl; split; try reflexivity; intros Hv; exfalso; now apply (Hv d).
Qed.

(** Toggling the grouping, typing in the search box and clicking column
    headers never start a fetch and never change the cached dataset or the
    error; while the loading or the error view is shown they change
    nothing at all. *)
Theorem view_events_frame :
  forall (st : AppState) (evs : list event),
    forallb is_view_event evs = true ->
    query (run st evs) = query st /\
    ((forall d, render st <> ExplorerView d) -> run st evs = st).
Proof.
  unfold run. intros st evs. revert st.
  induction evs as [|e r IH]; simpl; intros st H; [split; reflexivity|].
  apply andb_prop in H. destruct H as [He Hr].
  destruct (@dispatch_view_event st e He) as [Hq Hsame].
  destruct (IH (dispatch st e) Hr) as [IHq IHsame]. split.
  - now rewrite IHq.
  - intros Hv. rewrite (Hsame Hv) in *. now apply IHsame.
Qed.

Lemma window_nth height : forall items first i it,
  window height first items ->
  nth_error items i = Some it ->
  Virtual.index it = first + i /\
  Virtual.size it = height /\
  Virtual.start it = (Z.of_nat (first + i) * height)%Z.
Proof.
  induction items as [|x rest IH]; intros first i it Hw Hi.
  - destruct i; discriminate.
  - destruct Hw as (Hidx & Hsize & Hstart & Hrest). destruct i as [|i]; simpl in Hi.
    + injection Hi as <-. rewrite Nat.add_0_r. auto.
    + destruct (IH (S first) i it Hrest Hi) as (H1 & H2 & H3).
      replace (first + S i) with (S first + i) by lia. auto.
Qed.

(** For virtual items of one height standing for consecutive rows, every
    rendered row is shifted by the same amount, the start offset of the
    first item; the row rendered at position [i], which the layout puts
    [i] heights down, thus ends up at the start offset of its item. *)
Theorem translateY_window :
  forall (height : Z) (items : list Virtual.Item) (first i : nat)
         (virtualRow : Virtual.Item),
    window height first items ->
    nth_error items i = Some virtualRow ->
    translateY virtualRow i = (Z.of_nat first * height)%Z /\
    (translateY virtualRow i + Z.of_nat i * height)%Z = Virtual.start virtualRow /\
    Virtual.index virtualRow = first + i.
Proof.
  intros height items first i virtualRow Hw Hi.
  destruct (@window_nth height items first i virtualRow Hw Hi)
    as (Hidx & Hsize & Hstart).
  unfold translateY. rewrite Hsize, Hstart. repeat split; try lia.
Qed.

(** ** [BigInt] on decimal strings *)

Lemma strip_any_digit c r :
  JsObject.is_digit c = true ->
  JsBigInt.strip_any JsBigInt.white_space (c :: r) = None /\
  JsBigInt.strip_any (map (@rev nat) JsBigInt.white_space) (c :: r) = None.
Proof.
  destruct c as [[] [] [] [] [] [] [] []]; intros H; try discriminate H;
    split; reflexivity.
Qed.

Lemma trim_start_digits ps fuel c r :
  JsBigInt.strip_any ps (c :: r) = None ->
  JsBigInt.trim_start_fuel ps fuel (c :: r) = c :: r.
Proof. intros H. destruct fuel; simpl; [reflexivity|now rewrite H]. Qed.

Lemma trim_digits l :
  forallb JsObject.is_digit l = true -> JsBigInt.trim l = l.
Proof.
  intros H. unfold JsBigInt.trim, JsBigInt.trim_start, JsBigInt.trim_end.
  assert (Hstart : JsBigInt.trim_start_fuel JsBigInt.white_space
                     (List.length l) l = l).
  { destruct l as [|c r]; [reflexivity|]. cbn [forallb] in H.
    apply andb_prop in H. destruct H as [Hc _].
    apply trim_start_digits. exact (proj1 (@strip_any_digit c r Hc)). }
  rewrite Hstart.
  assert (Hrev : forallb JsObject.is_digit (rev l) = true).
  { rewrite forallb_forall in *. intros x Hx. apply H. now apply in_rev. }
  destruct (rev l) as [|c r] eqn:E.
  - assert (l = []) as -> by (rewrite <- (rev_involutive l), E; reflexivity).
    reflexivity.
  - cbn [forallb] in Hrev. apply andb_prop in Hrev. destruct Hrev as [Hc _].
    rewrite trim_start_digits by exact (proj2 (@strip_any_digit c r Hc)).
    rewrite <- E. apply rev_involutive.
Qed.

Lemma integer_literal_digits l :
  forallb JsObject.is_digit l = true ->
  JsBigInt.integer_literal l = JsBigInt.digits 10 l.
Proof.
  destruct l as [|c r]; [reflexivity|]. simpl. intros H.
  apply andb_prop in H. destruct H as [Hc Hr].
  destruct c as [[] [] [] [] [] [] [] []]; try discriminate Hc; try reflexivity.
  destruct r as [|c' r']; [reflexivity|]. simpl in Hr.
  apply andb_prop in Hr. destruct Hr as [Hc' _].
  destruct c' as [[] [] [] [] [] [] [] []]; try discriminate Hc'; reflexivity.
Qed.

Lemma uint_digits d :
  forallb JsObject.is_digit
    (list_ascii_of_string (NilEmpty.string_of_uint d)) = true.
Proof. induction d; simpl; auto. Qed.

Lemma digits_from_acc d : forall acc : positive,
  JsBigInt.digits_from 10
    (list_ascii_of_string (NilEmpty.string_of_uint d)) (Z.pos acc) =
  Some (Z.pos (Pos.of_uint_acc d acc)).
Proof.
  induction d; intros acc; cbn [NilEmpty.string_of_uint list_ascii_of_string
    JsBigInt.digits_from Pos.of_uint_acc]; try reflexivity;
    match goal with
    | |- context [JsBigInt.digit_val 10 ?c] =>
        let v := eval vm_compute in (JsBigInt.digit_val 10 c) in
        change (JsBigInt.digit_val 10 c) with v
    end; cbv iota beta;
    match goal with
    | |- JsBigInt.digits_from 10 _ ?z = Some (Z.pos (Pos.of_uint_acc _ ?q)) =>
        replace z with (Z.pos q) by lia
    end; apply IHd.
Qed.

Lemma digits_from_zero d :
  JsBigInt.digits_from 10
    (list_ascii_of_string (NilEmpty.string_of_uint d)) 0 =
  Some (Z.of_N (Pos.of_uint d)).
Proof.
  induction d; cbn [NilEmpty.string_of_uint list_ascii_of_string
    JsBigInt.digits_from Pos.of_uint]; try reflexivity;
    match goal with
    | |- context [JsBigInt.digit_val 10 ?c] =>
        let v := eval vm_compute in (JsBigInt.digit_val 10 c) in
        change (JsBigInt.digit_val 10 c) with v
    end; cbv iota beta;
    first [ exact IHd | apply digits_from_acc ].
Qed.

Lemma parse_uint d :
  JsBigInt.parse (NilZero.string_of_uint d) = Some (Z.of_N (N.of_uint d)).
Proof.
  destruct d eqn:E; [reflexivity| ..]; rewrite <- E;
    (assert (Hs : NilZero.string_of_uint d = NilEmpty.string_of_uint d)
       by (subst d; reflexivity));
    rewrite Hs; unfold JsBigInt.parse;
    rewrite (trim_digits _ (uint_digits d));
    pose proof (uint_digits d) as Hd;
    pose proof (digits_from_zero d) as Hz;
    (destruct (list_ascii_of_string (NilEmpty.string_of_uint d)) as [|c r] eqn:El;
     [subst d; discriminate El|]);
    rewrite (integer_literal_digits _ Hd); exact Hz.
Qed.

(** [BigInt] reads the decimal form of every non-negative integer back
    exactly, whatever its size; hence [formatJoy] gives the same text for a
    bigint total and for the same amount arriving as a decimal string. *)
Theorem BigInt_decimal_exact :
  forall n : Z,
    (0 <= n)%Z ->
    BigInt (Dnum.decimal n) = Ok n /\
    formatJoyOf (StringValue (Dnum.decimal n)) = formatJoyOf (BigIntValue n).
Proof.
  intros n Hn.
  assert (H : BigInt (Dnum.decimal n) = Ok n).
  { unfold BigInt, Dnum.decimal. rewrite parse_uint.
    rewrite DecimalN.Unsigned.of_to, Z2N.id by lia. reflexivity. }
  split; [exact H|]. unfold formatJoyOf, BigIntOf. now rewrite H.
Qed.

(** ** The further statements at concrete inputs *)

Lemma groupedPayments_per_channel_witness :
  let g := mkAggregate "2" "two" 15 2 in
  totalAmount g = sumZ (map amount_value (paid_to "2" sample_payments)) /\
  count g = List.length (paid_to "2" sample_payments) /\
  1 <= count g.
Proof.
  apply (@groupedPayments_per_channel (Some sample_payments) sample_aggregates
           (mkAggregate "2" "two" 15 2)).
  - reflexivity.
  - simpl. auto.
Defined.

Lemma groupedPayments_accepts_witness :
  forallb acceptable [ sample_event "toString" None "5" ] = false /\
  (TypeError = TypeError \/ TypeError = SyntaxError).
Proof.
  split; [reflexivity|].
  apply (proj2 (groupedPayments_accepts [ sample_event "toString" None "5" ])).
  reflexivity.
Defined.

Lemma groupedPayments_permutation_witness :
  exists aggs2,
    groupedPayments (Some (rev sample_payments)) = Ok aggs2 /\
    List.length aggs2 = List.length sample_aggregates /\
    forall g1, In g1 sample_aggregates ->
      exists g2, In g2 aggs2 /\
                 channelId g2 = channelId g1 /\
                 totalAmount g2 = totalAmount g1 /\
                 count g2 = count g1.
Proof.
  apply (@groupedPayments_permutation sample_payments (rev sample_payments)
           sample_aggregates).
  - apply Permutation_rev.
  - reflexivity.
Defined.

Lemma fetchPayments_fuel_witness :
  fetchPayments three_page_source 10 = fetchPayments three_page_source 3.
Proof.
  apply (@fetchPayments_fuel three_page_source 3 10
           (Ok (full_page ++ full_page ++ short_page)%list)).
  - reflexivity.
  - lia.
Defined.

Lemma fetchPayments_request_count_witness :
  Z.of_nat (List.length [0; 5000; 10000]%Z) =
  (Z.of_nat (List.length (full_page ++ full_page ++ short_page)%list) / limit + 1)%Z.
Proof.
  apply (@fetchPayments_request_count three_page_source 3).
  - intros k p. unfold three_page_source.
    destruct (offset_of k <? 10000)%Z; intros [= <-]; vm_compute; discriminate.
  - reflexivity.
Defined.

Lemma fetchPayments_complete_witness :
  fetchPayments (paged (full_page ++ short_page)) 2 =
    (map offset_of (seq 0 2), Some (Ok (full_page ++ short_page)%list)).
Proof.
  apply (@fetchPayments_complete (paged (full_page ++ short_page))
           (full_page ++ short_page)%list 1 2).
  - intros k. reflexivity.
  - split; vm_compute; [discriminate|reflexivity].
  - lia.
Defined.

Lemma tableData_rows_witness :
  let st := mount (Some sample_payments) in
  List.length (map GroupedRow sample_aggregates) =
    (if groupByChannel st
     then List.length (first_seen (channel_ids sample_payments))
     else List.length sample_payments) /\
  List.length (first_seen (channel_ids sample_payments)) <=
    List.length sample_payments.
Proof.
  apply (@tableData_rows (mount (Some sample_payments))
           (map GroupedRow sample_aggregates)).
  reflexivity.
Defined.

Lemma renderedCells_ok_witness :
  exists cell,
    flatAmountCell (sample_event "2" (Some "two") "5") = Ok cell.
Proof.
  apply (@renderedCells_ok
           (run (mount (Some sample_payments)) [ ClickToggle ])
           (map FlatRow sample_payments)
           (FlatRow (sample_event "2" (Some "two") "5"))).
  - reflexivity.
  - simpl. auto.
  - simpl. auto.
Defined.

Lemma view_events_frame_witness :
  let st := mount None in
  let evs := [ ClickToggle; TypeFilter "joy"; ClickHeader [] ] in
  query (run st evs) = query st /\ run st evs = st.
Proof.
  destruct (@view_events_frame (mount None)
              [ ClickToggle; TypeFilter "joy"; ClickHeader [] ] eq_refl)
    as [Hq Hsame].
  split; [exact Hq|]. apply Hsame. intros d. discriminate.
Defined.

Lemma translateY_window_witness :
  let items := [ Virtual.mkItem 3 111 37; Virtual.mkItem 4 148 37 ] in
  translateY (Virtual.mkItem 4 148 37) 1 = (Z.of_nat 3 * ROW_HEIGHT)%Z /\
  (translateY (Virtual.mkItem 4 148 37) 1 + Z.of_nat 1 * ROW_HEIGHT)%Z = 148%Z /\
  4 = 3 + 1.
Proof.
  apply (@translateY_window ROW_HEIGHT
           [ Virtual.mkItem 3 111 37; Virtual.mkItem 4 148 37 ] 3 1
           (Virtual.mkItem 4 148 37)).
  - simpl. repeat split.
  - reflexivity.
Defined.

Lemma BigInt_decimal_exact_witness :
  BigInt (Dnum.decimal (2 ^ 64)) = Ok (2 ^ 64)%Z /\
  formatJoyOf (StringValue (Dnum.decimal (2 ^ 64))) =
    formatJoyOf (BigIntValue (2 ^ 64)).
Proof.
  apply (@BigInt_decimal_exact (2 ^ 64)%Z). lia.
Defined.
